(** * AvengedBase: the account-map store of [index.js]

    A shallow embedding of the data layer of [src/index.js] (lines 36-173):
    the two tables [maps] and [accounts] with the constraints their DDL
    declares, the repository functions that run one SQL statement each,
    the credential-pair parser and the bulk importer.

    Text.  A JavaScript string is modelled by the list of its Unicode code
    points (well-formed UTF-16).  On such text [trim], [indexOf(':')],
    [slice] and [split(/\r?\n/)] act position by position exactly as they do
    on UTF-16 code units, and the store's BINARY comparison (a [memcmp] of
    the UTF-8 encodings) is the lexicographic order of the code points.

    Store.  The SQL engine is modelled from the statements and the DDL in
    the source: a table is the list of its rows in rowid order, an INSERT
    checks the table's constraints and appends a row, a failing statement
    leaves the store as it was.  The [created_at] column is filled by the
    engine's clock and is not part of the model. *)

From Stdlib Require Import ZArith NArith List Bool String Ascii Lia.
From Stdlib Require Import Sorting.Sorted Sorting.Permutation.
Import ListNotations.

(* ================================================================== *)
(** ** JavaScript strings *)
(* ================================================================== *)

Module JS.

Definition jsstring := list N.

(** A string literal of the source (ASCII) as a [jsstring]. *)
Definition str (s : string) : jsstring :=
  List.map N_of_ascii (list_ascii_of_string s).

Definition eqb (a b : jsstring) : bool :=
  if list_eq_dec N.eq_dec a b then true else false.

(** [WhiteSpace] and [LineTerminator] of ECMAScript: what [trim] strips. *)
Definition isWhiteSpace (c : N) : bool :=
  ((c =? 9) || (c =? 10) || (c =? 11) || (c =? 12) || (c =? 13) || (c =? 32)
   || (c =? 160) || (c =? 5760) || ((8192 <=? c) && (c <=? 8202))
   || (c =? 8232) || (c =? 8233) || (c =? 8239) || (c =? 8287)
   || (c =? 12288) || (c =? 65279))%N.

Fixpoint trimStart (s : jsstring) : jsstring :=
  match s with
  | [] => []
  | c :: r => if isWhiteSpace c then trimStart r else s
  end.

Definition trimEnd (s : jsstring) : jsstring := rev (trimStart (rev s)).

Definition trim (s : jsstring) : jsstring := trimEnd (trimStart s).

(** [s.indexOf(c)] for a one-character needle: the first position, or -1. *)
Fixpoint indexOf (c : N) (s : jsstring) : Z :=
  match s with
  | [] => -1
  | x :: r =>
      if (x =? c)%N then 0
      else let i := indexOf c r in if (i <? 0)%Z then -1 else (i + 1)%Z
  end.

(** [s.slice(from, to)] and [s.slice(from)] for indices within bounds
    or beyond the end (negative indices do not occur in the source). *)
Definition slice (s : jsstring) (from to : Z) : jsstring :=
  firstn (Z.to_nat to - Z.to_nat from) (skipn (Z.to_nat from) s).

Definition sliceFrom (s : jsstring) (from : Z) : jsstring :=
  skipn (Z.to_nat from) s.

Definition cons_head (c : N) (ps : list jsstring) : list jsstring :=
  match ps with
  | [] => [[c]]
  | p :: ps' => (c :: p) :: ps'
  end.

(** [s.split(/\r?\n/)]: every LF, together with a CR right before it, is a
    separator; the empty string splits into one empty piece. *)
Fixpoint splitLines (s : jsstring) : list jsstring :=
  match s with
  | [] => [[]]
  | c :: r =>
      if (c =? 10)%N then [] :: splitLines r
      else
        match r with
        | d :: r' =>
            if ((c =? 13) && (d =? 10))%N then [] :: splitLines r'
            else cons_head c (splitLines r)
        | [] => [[c]]
        end
  end.

Fixpoint startsWith (p s : jsstring) : bool :=
  match p, s with
  | [], _ => true
  | _ :: _, [] => false
  | x :: p', y :: s' => (x =? y)%N && startsWith p' s'
  end.

(** [s.includes(p)]. *)
Fixpoint includes (p s : jsstring) : bool :=
  startsWith p s ||
  match s with
  | [] => false
  | _ :: s' => includes p s'
  end.

(** Truthiness of a string: [Boolean(s)], [!s]. *)
Definition nonEmpty (s : jsstring) : bool :=
  match s with [] => false | _ :: _ => true end.

(** The values an optional argument takes in the source: a string or one of
    the falsy primitives. *)
Inductive jsval :=
| JUndefined
| JNull
| JFalse
| JZero
| JNaN
| JStr (s : jsstring).

Definition truthy (v : jsval) : bool :=
  match v with
  | JStr s => nonEmpty s
  | _ => false
  end.

(** [v || d] where [d] is a string or null and the result is bound to a
    statement parameter ([None] is SQL NULL). *)
Definition orElse (v : jsval) (d : option jsstring) : option jsstring :=
  match v with
  | JStr (c :: s) => Some (c :: s)
  | _ => d
  end.

(** [String(v || '')]. *)
Definition stringOrEmpty (v : jsval) : jsstring :=
  match v with
  | JStr s => s
  | _ => []
  end.

End JS.

Import JS.

(* ================================================================== *)
(** ** Exceptions *)
(* ================================================================== *)

(** The constraint failures the engine reports for the two tables. *)
Inductive constraint :=
| UniqueFailed (columns : string)
| ForeignKeyFailed
| NotNullFailed (column : string).

(** What the code throws: [new Error(msg)] of the parser, or the engine's
    [SqliteError]. *)
Inductive exn :=
| Error (msg : string)
| SqliteError (c : constraint).

(** [e.message] *)
Definition message (e : exn) : jsstring :=
  match e with
  | Error msg => str msg
  | SqliteError (UniqueFailed cols) =>
      str ("UNIQUE constraint failed: " ++ cols)
  | SqliteError ForeignKeyFailed => str "FOREIGN KEY constraint failed"
  | SqliteError (NotNullFailed col) =>
      str ("NOT NULL constraint failed: " ++ col)
  end.

Inductive result (A : Type) :=
| Ok (a : A)
| Throw (e : exn).

Arguments Ok {A} a.
Arguments Throw {A} e.

Definition bind {A B} (r : result A) (k : A -> result B) : result B :=
  match r with
  | Ok a => k a
  | Throw e => Throw e
  end.

Notation "x <- c ;; k" := (bind c (fun x => k))
  (at level 61, c at next level, right associativity).

(* ================================================================== *)
(** ** parsePair (index.js 96-104) *)
(* ================================================================== *)

Definition colon : N := 58%N.

Definition parsePair (pair : jsval) : result (jsstring * jsstring) :=
  let s := trim (stringOrEmpty pair) in
  let idx := indexOf colon s in
  if (idx <=? 0)%Z then Throw (Error "Use format USERNAME_OR_EMAIL:PASSWORD")
  else
    let login := trim (slice s 0 idx) in
    let password := trim (sliceFrom s (idx + 1)) in
    if negb (nonEmpty login) || negb (nonEmpty password)
    then Throw (Error "Both login and password are required")
    else Ok (login, password).

(* ================================================================== *)
(** ** The store (index.js 36-67) *)
(* ================================================================== *)

(** A row of [maps]: [id INTEGER PRIMARY KEY AUTOINCREMENT],
    [name TEXT NOT NULL UNIQUE COLLATE NOCASE]. *)
Record map_row := MapRow {
  map_id_of : Z;
  map_name : jsstring
}.

(** A row of [accounts]; [None] is SQL NULL.  The legacy columns [name] and
    [data] come from the CREATE TABLE, the columns [login], [password] and
    [label] from the ALTER TABLE statements (plain TEXT, BINARY collation). *)
Record account_row := AccountRow {
  acc_id : Z;
  acc_name : option jsstring;
  acc_map_id : Z;
  acc_data : option jsstring;
  acc_login : option jsstring;
  acc_password : option jsstring;
  acc_label : option jsstring
}.

(** The database behind the handle [db]: both tables in rowid order and the
    AUTOINCREMENT counters the engine keeps for them. *)
Record database := Database {
  maps : list map_row;
  accounts : list account_row;
  seq_maps : Z;
  seq_accounts : Z
}.

Definition empty_database : database := Database [] [] 0 0.

(** The info object of [stmt.run] for an INSERT. *)
Record run_info := RunInfo {
  changes : Z;
  lastInsertRowid : Z
}.

(** AUTOINCREMENT: one more than the largest rowid the table holds or ever
    held. *)
Definition next_rowid (seq : Z) (ids : list Z) : Z :=
  fold_right Z.max seq ids + 1.

(** COLLATE NOCASE: the 26 upper-case letters of ASCII are folded to lower
    case before the comparison. *)
Definition fold_ascii (c : N) : N :=
  if ((65 <=? c) && (c <=? 90))%N then (c + 32)%N else c.

(** The number of bytes of a character, and of a text, in UTF-8, the
    encoding the store keeps TEXT in. *)
Definition utf8_length (c : N) : nat :=
  if (c <? 128)%N then 1
  else if (c <? 2048)%N then 2
  else if (c <? 65536)%N then 3
  else 4.

Definition byte_length (s : jsstring) : nat :=
  list_sum (List.map utf8_length s).

(** The collating function of NOCASE.  The engine walks the two encodings
    byte by byte over the length of the shorter one, folding ASCII
    letters, and stops at the first difference or at a zero byte of the
    first text; when it met no difference, the byte lengths of the whole
    texts decide.  On code points: the first pair of characters that
    differ after folding decides; a U+0000 met in both texts at the same
    place ends the walk and leaves the decision to the byte lengths of
    what follows; a text that ends first is the smaller. *)
Fixpoint collate_nocase (a b : jsstring) : comparison :=
  match a, b with
  | [], [] => Eq
  | [], _ :: _ => Lt
  | _ :: _, [] => Gt
  | x :: a', y :: b' =>
      match (fold_ascii x ?= fold_ascii y)%N with
      | Eq =>
          if (x =? 0)%N
          then Nat.compare (byte_length a') (byte_length b')
          else collate_nocase a' b'
      | c => c
      end
  end.

(** Equality under NOCASE, as the UNIQUE constraint of [maps.name] and the
    comparison [name = ?] use it. *)
Definition nocase_eqb (a b : jsstring) : bool :=
  match collate_nocase a b with
  | Eq => true
  | _ => false
  end.

(** BINARY order of two TEXT values. *)
Fixpoint binary_leb (a b : jsstring) : bool :=
  match a, b with
  | [], _ => true
  | _ :: _, [] => false
  | x :: a', y :: b' =>
      if (x <? y)%N then true
      else if (y <? x)%N then false
      else binary_leb a' b'
  end.

(** The order of ORDER BY ... ASC on a TEXT-or-NULL value: NULL first. *)
Definition sql_leb (a b : option jsstring) : bool :=
  match a, b with
  | None, _ => true
  | Some _, None => false
  | Some x, Some y => binary_leb x y
  end.

(** [COALESCE(a, b, c)] *)
Definition coalesce3 (a b c : option jsstring) : option jsstring :=
  match a with
  | Some _ => a
  | None => match b with Some _ => b | None => c end
  end.

(* ------------------------------------------------------------------ *)
(** *** Maps (index.js 69-84) *)

Definition name_taken (db : database) (n : jsstring) : bool :=
  existsb (fun m => nocase_eqb (map_name m) n) (maps db).

Definition map_exists (db : database) (id : Z) : bool :=
  existsb (fun m => (map_id_of m =? id)%Z) (maps db).

(** [INSERT INTO maps (name) VALUES (?)] with [name.trim()]. *)
Definition createMap (db : database) (name : jsstring)
  : result (database * run_info) :=
  let n := trim name in
  if name_taken db n then Throw (SqliteError (UniqueFailed "maps.name"))
  else
    let id := next_rowid (seq_maps db) (List.map map_id_of (maps db)) in
    Ok (Database (maps db ++ [MapRow id n]) (accounts db)
                 id (seq_accounts db),
        RunInfo 1 id).

(** [DELETE FROM maps WHERE id = ?]; with [foreign_keys = ON] every deleted
    map takes the accounts that reference it along (ON DELETE CASCADE).
    The second component is [changes], which counts the map rows only. *)
Definition deleteMapById (db : database) (id : Z) : database * Z :=
  let hit := filter (fun m => (map_id_of m =? id)%Z) (maps db) in
  match hit with
  | [] => (db, 0%Z)
  | _ :: _ =>
      (Database (filter (fun m => negb (map_id_of m =? id)%Z) (maps db))
                (filter (fun a => negb (acc_map_id a =? id)%Z) (accounts db))
                (seq_maps db) (seq_accounts db),
       Z.of_nat (List.length hit))
  end.

(** [SELECT * FROM maps WHERE name = ?] with [name.trim()]; the column's
    collation makes the comparison NOCASE. *)
Definition getMapByName (db : database) (name : jsstring) : option map_row :=
  find (fun m => nocase_eqb (map_name m) (trim name)) (maps db).

(** [SELECT * FROM maps WHERE id = ?] *)
Definition getMapById (db : database) (id : Z) : option map_row :=
  find (fun m => (map_id_of m =? id)%Z) (maps db).

(* ------------------------------------------------------------------ *)
(** *** Accounts (index.js 106-118, 145-173) *)

(** The partial unique index [idx_accounts_login_map ON accounts(login,
    map_id) WHERE login IS NOT NULL]: an existing row clashes with the new
    one when both logins are non-NULL and equal as TEXT and the map ids are
    equal. *)
Definition login_clash (login : option jsstring) (mapId : Z)
    (a : account_row) : bool :=
  match acc_login a, login with
  | Some l, Some l' => JS.eqb l l' && (acc_map_id a =? mapId)%Z
  | _, _ => false
  end.

(** The row the INSERT below builds from its six parameters, under the next
    rowid, and the store with that row appended. *)
Definition new_account_row (db : database) (mapId : Z)
    (login password : option jsstring) (label : jsval) : account_row :=
  AccountRow (next_rowid (seq_accounts db) (List.map acc_id (accounts db)))
             (orElse label login) mapId None
             login password (orElse label None).

Definition with_account (db : database) (row : account_row) : database :=
  Database (maps db) (accounts db ++ [row]) (seq_maps db) (acc_id row).

(** [INSERT INTO accounts (login, password, label, map_id, name, data)
    VALUES (?, ?, ?, ?, ?, ?)] run with
    [(login, password, label || null, mapId, label || login, null)].
    The unique index is checked as the row goes in, the foreign key when
    the statement ends. *)
Definition addAccountToMap (db : database) (mapId : Z)
    (login password : option jsstring) (label : jsval)
  : result (database * run_info) :=
  if existsb (login_clash login mapId) (accounts db)
  then Throw (SqliteError
                (UniqueFailed "accounts.login, accounts.map_id"))
  else if negb (map_exists db mapId)
  then Throw (SqliteError ForeignKeyFailed)
  else
    let row := new_account_row db mapId login password label in
    Ok (with_account db row, RunInfo 1 (acc_id row)).

Definition addAccountPairToMap (db : database) (mapId : Z)
    (pair : jsval) (label : jsval) : result (database * run_info) :=
  lp <- parsePair pair ;;
  addAccountToMap db mapId (Some (fst lp)) (Some (snd lp)) label.

(** A row of [listAccountsByMapId]: [id], the effective label, [login],
    [password]. *)
Record account_listing := AccountListing {
  li_id : Z;
  li_label : option jsstring;
  li_login : option jsstring;
  li_password : option jsstring
}.

Definition listing_of (a : account_row) : account_listing :=
  AccountListing (acc_id a)
                 (coalesce3 (acc_label a) (acc_login a) (acc_name a))
                 (acc_login a) (acc_password a).

Definition listing_leb (x y : account_listing) : bool :=
  sql_leb (li_label x) (li_label y).

Fixpoint insert_sorted (x : account_listing) (l : list account_listing)
  : list account_listing :=
  match l with
  | [] => [x]
  | y :: l' => if listing_leb x y then x :: l else y :: insert_sorted x l'
  end.

(** ORDER BY label ASC.  [label] names the output column
    [COALESCE(label, login, name)], an expression, so the comparison is
    BINARY.  Rows with equal labels come in an order the engine is free to
    choose; the model keeps them in table order. *)
Definition orderByLabel (l : list account_listing) : list account_listing :=
  fold_right insert_sorted [] l.

(** LIMIT ?: a negative bound means no bound. *)
Definition sql_limit {A} (limit : Z) (l : list A) : list A :=
  if (limit <? 0)%Z then l else firstn (Z.to_nat limit) l.

Definition listAccountsByMapId (db : database) (mapId : Z) (limit : Z)
  : list account_listing :=
  sql_limit limit
    (orderByLabel
       (List.map listing_of
          (filter (fun a => (acc_map_id a =? mapId)%Z) (accounts db)))).

(** [DELETE FROM accounts WHERE map_id = ? AND login = ?] with
    [login.trim()]; the second component is [changes]. *)
Definition removeAccountByLogin (db : database) (mapId : Z)
    (login : jsstring) : database * Z :=
  let hit a := match acc_login a with
               | Some l => (acc_map_id a =? mapId)%Z && JS.eqb l (trim login)
               | None => false
               end in
  (Database (maps db) (filter (fun a => negb (hit a)) (accounts db))
            (seq_maps db) (seq_accounts db),
   Z.of_nat (List.length (filter hit (accounts db)))).

(** [DELETE FROM accounts WHERE id = ?] *)
Definition removeAccountById (db : database) (id : Z) : database * Z :=
  (Database (maps db)
            (filter (fun a => negb (acc_id a =? id)%Z) (accounts db))
            (seq_maps db) (seq_accounts db),
   Z.of_nat (List.length (filter (fun a => (acc_id a =? id)%Z) (accounts db)))).

(** A row of [getAccountById]: as the listing, with [map_id]. *)
Record account_detail := AccountDetail {
  de_id : Z;
  de_label : option jsstring;
  de_login : option jsstring;
  de_password : option jsstring;
  de_map_id : Z
}.

(** [SELECT id, COALESCE(label, login, name) AS label, login, password,
    map_id, created_at FROM accounts WHERE id = ?]; [None] is the
    [undefined] of [stmt.get]. *)
Definition getAccountById (db : database) (id : Z) : option account_detail :=
  match find (fun a => (acc_id a =? id)%Z) (accounts db) with
  | Some a =>
      Some (AccountDetail (acc_id a)
              (coalesce3 (acc_label a) (acc_login a) (acc_name a))
              (acc_login a) (acc_password a) (acc_map_id a))
  | None => None
  end.

(* ------------------------------------------------------------------ *)
(** *** Bulk import (index.js 120-143) *)

Record error_entry := ErrorEntry {
  line : jsstring;
  error : jsstring
}.

Record bulk_results := BulkResults {
  added : Z;
  duplicates : Z;
  errors : list error_entry
}.

(** The lines of [pairsText]: split, trimmed, empty ones dropped. *)
Definition linesOf (pairsText : jsval) : list jsstring :=
  filter nonEmpty (List.map trim (splitLines (stringOrEmpty pairsText))).

(** One turn of the [for] loop: the [try] block, then the [catch]. *)
Definition bulkStep (mapId : Z) (st : database * bulk_results)
    (ln : jsstring) : database * bulk_results :=
  let (db, results) := st in
  match (lp <- parsePair (JStr ln) ;;
         addAccountToMap db mapId (Some (fst lp)) (Some (snd lp)) JNull) with
  | Ok (db', _) =>
      (db', BulkResults (added results + 1) (duplicates results)
                        (errors results))
  | Throw e =>
      if includes (str "UNIQUE") (message e)
         || includes (str "constraint") (message e)
      then (db, BulkResults (added results) (duplicates results + 1)
                            (errors results))
      else (db, BulkResults (added results) (duplicates results)
                            (errors results ++ [ErrorEntry ln (message e)]))
  end.

(** The transaction body never throws (every exception is caught in the
    loop), so the transaction commits what the loop has inserted. *)
Definition bulkAddPairs (db : database) (mapId : Z) (pairsText : jsval)
  : database * bulk_results :=
  fold_left (bulkStep mapId) (linesOf pairsText) (db, BulkResults 0 0 []).

(** The shape of a row the bulk loop appends: in the target map, with a
    login, the login repeated in [name], no label and no [data]. *)
Definition bulk_row_ok (mapId : Z) (row : account_row) : Prop :=
  acc_map_id row = mapId
  /\ acc_login row <> None
  /\ acc_name row = acc_login row
  /\ acc_label row = None
  /\ acc_data row = None.

(* ------------------------------------------------------------------ *)
(** *** Inputs and stores used in the examples below *)

(** [lines.join('\n')] *)
Fixpoint joinLines (ls : list jsstring) : jsstring :=
  match ls with
  | [] => []
  | [l] => l
  | l :: ls' => l ++ 10%N :: joinLines ls'
  end.

(** One map, no accounts. *)
Definition db_one_map : database :=
  Database [MapRow 1 (str "Main")] [] 1 0.

(** Two maps; map 1 holds the login [alice]. *)
Definition alice_row : account_row :=
  AccountRow 1 (Some (str "alice")) 1 None
             (Some (str "alice")) (Some (str "pw")) None.

Definition db_alice : database :=
  Database [MapRow 1 (str "Main"); MapRow 2 (str "Other")]
           [alice_row] 2 1.

(** Two maps whose names share the prefix [a], U+0000: [a\0z] and
    [a\0bb]. *)
Definition db_nul_names : database :=
  Database [MapRow 1 [97; 0; 122]%N; MapRow 2 [97; 0; 98; 98]%N] [] 2 0.

(** One map whose two accounts are labelled [a] and [B]. *)
Definition db_mixed_case : database :=
  Database [MapRow 1 (str "Main")]
           [AccountRow 1 (Some (str "a")) 1 None
                       (Some (str "u1")) (Some (str "p1")) (Some (str "a"));
            AccountRow 2 (Some (str "B")) 1 None
                       (Some (str "u2")) (Some (str "p2")) (Some (str "B"))]
           1 2.

(** A case-insensitive order on labels: BINARY on the text with its ASCII
    letters folded, NULL first. *)
Definition nocase_leb (a b : option jsstring) : bool :=
  sql_leb (option_map (List.map fold_ascii) a)
          (option_map (List.map fold_ascii) b).

(* ------------------------------------------------------------------ *)
(** *** Map listing (index.js 85-94) *)

(** A row of [listMapsWithCounts]: [id], [name], [account_count]. *)
Record map_count := MapCount {
  mc_id : Z;
  mc_name : jsstring;
  account_count : Z
}.

(** The order of the NOCASE collation on two TEXT values. *)
Definition nocase_text_leb (a b : jsstring) : bool :=
  match collate_nocase a b with
  | Gt => false
  | _ => true
  end.

Fixpoint insert_by {A} (leb : A -> A -> bool) (x : A) (l : list A) : list A :=
  match l with
  | [] => [x]
  | y :: l' => if leb x y then x :: l else y :: insert_by leb x l'
  end.

Definition sort_by {A} (leb : A -> A -> bool) (l : list A) : list A :=
  fold_right (insert_by leb) [] l.

(** [SELECT m.id, m.name, m.created_at, COUNT(a.id) AS account_count
     FROM maps m LEFT JOIN accounts a ON a.map_id = m.id
     GROUP BY m.id ORDER BY m.name ASC].
    [m.id] is the primary key, so every group is one map with the accounts
    that reference it; a map without accounts is joined to one all-NULL
    row, which COUNT(a.id) does not count.  [m.name] is a column, so the
    order is that of its collation, NOCASE. *)
Definition listMapsWithCounts (db : database) : list map_count :=
  sort_by (fun x y => nocase_text_leb (mc_name x) (mc_name y))
    (List.map
       (fun m =>
          MapCount (map_id_of m) (map_name m)
            (Z.of_nat
               (List.length
                  (filter (fun a => (acc_map_id a =? map_id_of m)%Z)
                          (accounts db)))))
       (maps db)).

(** The number of accounts that reference a map id, and the sum of a list
    of counts. *)
Definition count_of (db : database) (id : Z) : nat :=
  List.length (filter (fun a => (acc_map_id a =? id)%Z) (accounts db)).

Fixpoint sumZ (l : list Z) : Z :=
  match l with
  | [] => 0%Z
  | x :: r => (x + sumZ r)%Z
  end.

(* ------------------------------------------------------------------ *)
(** *** Display helpers (index.js 175-184, 563-570) *)

(** [truncate] and [mask] measure their text with [length] and cut it with
    [slice], which count UTF-16 code units: their argument is the list of
    the code units of the string. *)

(** [s.slice(0, e)] with the relative reading of a negative [e]. *)
Definition sliceTo (s : jsstring) (e : Z) : jsstring :=
  let len := Z.of_nat (List.length s) in
  let to := if (e <? 0)%Z then Z.max (len + e) 0 else Z.min e len in
  firstn (Z.to_nat to) s.

(** The three-character literal the file has at line 177. *)
Definition ellipsis : jsstring := [226; 8364; 166]%N.

Definition truncate (v : jsval) (max : Z) : jsval :=
  match v with
  | JStr s =>
      if negb (nonEmpty s) then v
      else if (Z.of_nat (List.length s) >? max)%Z
           then JStr (sliceTo s (max - 1) ++ ellipsis)
           else v
  | _ => v
  end.

(** The literals of lines 181 and 183, as the file has them. *)
Definition dash : jsstring := [226; 8364; 8221]%N.
Definition bullet : jsstring := [226; 8364; 162]%N.

(** [s.repeat(n)] *)
Fixpoint repeatStr (s : jsstring) (n : nat) : jsstring :=
  match n with
  | O => []
  | S n' => s ++ repeatStr s n'
  end.

Definition mask (pwd : jsval) : jsstring :=
  let s := stringOrEmpty pwd in
  if negb (nonEmpty s) then dash
  else repeatStr bullet
         (Z.to_nat (Z.max 6 (Z.min 10 (Z.of_nat (List.length s))))).

(** [s.replaceAll(c, r)] for a one-character pattern [c]. *)
Definition replaceAll (c : N) (r : jsstring) (s : jsstring) : jsstring :=
  flat_map (fun x => if (x =? c)%N then r else [x]) s.

(** [String(v)] *)
Definition toString (v : jsval) : jsstring :=
  match v with
  | JUndefined => str "undefined"
  | JNull => str "null"
  | JFalse => str "false"
  | JZero => str "0"
  | JNaN => str "NaN"
  | JStr s => s
  end.

(** [escapeHTML(str = '')]: the default takes the place of [undefined]. *)
Definition escapeHTML (v : jsval) : jsstring :=
  let s := toString (match v with JUndefined => JStr [] | _ => v end) in
  replaceAll 39 (str "&#039;")
    (replaceAll 34 (str "&quot;")
       (replaceAll 62 (str "&gt;")
          (replaceAll 60 (str "&lt;")
             (replaceAll 38 (str "&amp;") s)))).

(** What one character becomes in HTML text. *)
Definition escapeChar (c : N) : jsstring :=
  if (c =? 38)%N then str "&amp;"
  else if (c =? 60)%N then str "&lt;"
  else if (c =? 62)%N then str "&gt;"
  else if (c =? 34)%N then str "&quot;"
  else if (c =? 39)%N then str "&#039;"
  else [c].

(** The characters that open or close markup and attribute values:
    [<], [>], the double and the single quote. *)
Definition markup (c : N) : bool :=
  ((c =? 60) || (c =? 62) || (c =? 34) || (c =? 39))%N.

(** The text [escapeHTML] works on: [String(str)] after the default. *)
Definition textOf (v : jsval) : jsstring :=
  toString (match v with JUndefined => JStr [] | _ => v end).

(** The number of copies [mask] makes for a text of [n] code units. *)
Definition maskLength (n : nat) : nat :=
  Z.to_nat (Z.max 6 (Z.min 10 (Z.of_nat n))).

(* ------------------------------------------------------------------ *)
(** *** The web form that creates a map (index.js 673-678) *)

(** [app.post('/map', ...)]: the store after the request; the response is
    [res.redirect('/')] on every path. *)
Definition postMap (db : database) (body_name : jsval) : database :=
  let name := trim (stringOrEmpty body_name) in
  if negb (nonEmpty name) then db
  else
    match createMap db name with
    | Ok (db', _) => db'
    | Throw _ => db
    end.

(** The WHERE clause [map_id = ? AND login = ?] of [removeAccountByLogin],
    with [login.trim()] bound to the second parameter. *)
Definition login_hit (mapId : Z) (login : jsstring) (a : account_row)
  : bool :=
  match acc_login a with
  | Some l => (acc_map_id a =? mapId)%Z && JS.eqb l (trim login)
  | None => false
  end.

(* ------------------------------------------------------------------ *)
(** *** The columns of [accounts] at start-up (index.js 48-66) *)

(** The table as far as the migration looks at it: the names of its
    columns, in the order of [PRAGMA table_info]. *)
Definition columns := list jsstring.

(** [cols.some(c => c.name === column)] on the rows of
    [PRAGMA table_info(accounts)]. *)
Definition hasColumn (cols : columns) (column : jsstring) : bool :=
  existsb (fun c => JS.eqb c column) cols.

(** [ALTER TABLE accounts ADD COLUMN c TEXT]: the engine compares column
    names without regard to the case of ASCII letters and throws
    [duplicate column name] when one matches; [None] is that exception,
    which ends the start-up.  A column name holds no U+0000, so the
    comparison is the one of [nocase_eqb]. *)
Definition addColumn (cols : columns) (c : jsstring) : option columns :=
  if existsb (fun x => nocase_eqb x c) cols then None else Some (cols ++ [c]).

(** [if (!hasColumn('accounts', c)) db.exec(`ALTER TABLE ...`)] *)
Definition ensureColumn (cols : columns) (c : jsstring) : option columns :=
  if negb (hasColumn cols c) then addColumn cols c else Some cols.

(** The columns of the CREATE TABLE statement. *)
Definition legacy_columns : columns :=
  [str "id"; str "name"; str "map_id"; str "data"; str "created_at"].

(** Lines 48-66 on a database whose [accounts] table is absent ([None])
    or has the given columns: CREATE TABLE IF NOT EXISTS, then the three
    guarded ALTER TABLE statements. *)
Definition migrate (table : option columns) : option columns :=
  let cols := match table with
              | None => legacy_columns
              | Some c => c
              end in
  match ensureColumn cols (str "login") with
  | None => None
  | Some c1 =>
      match ensureColumn c1 (str "password") with
      | None => None
      | Some c2 => ensureColumn c2 (str "label")
      end
  end.

(** A guarded ALTER TABLE for [c] throws on these columns: the exact name
    is missing and a name equal to it up to case is there. *)
Definition blocked (cols : columns) (c : jsstring) : bool :=
  negb (hasColumn cols c) && existsb (fun x => nocase_eqb x c) cols.

(* ------------------------------------------------------------------ *)
(** *** Integrity of the store *)

(** The entries of the partial unique index: (login, map_id) of every row
    whose login is not NULL. *)
Definition login_keys (l : list account_row) : list (jsstring * Z) :=
  flat_map (fun a => match acc_login a with
                     | Some lg => [(lg, acc_map_id a)]
                     | None => []
                     end) l.

(** What the DDL promises of a store: both [id] columns are keys, map
    names differ pairwise even when the case of ASCII letters is ignored
    (UNIQUE COLLATE NOCASE ensures that and more), the index entries are
    unique, every
    account references a stored map, and no rowid exceeds the
    AUTOINCREMENT counter of its table. *)
Record consistent (db : database) : Prop := Consistent {
  maps_key : NoDup (List.map map_id_of (maps db));
  accounts_key : NoDup (List.map acc_id (accounts db));
  names_unique :
    NoDup (List.map (fun m => List.map fold_ascii (map_name m)) (maps db));
  logins_unique : NoDup (login_keys (accounts db));
  references :
    forall a, In a (accounts db) -> map_exists db (acc_map_id a) = true;
  maps_seq_bound :
    forall m, In m (maps db) -> (map_id_of m <= seq_maps db)%Z;
  accounts_seq_bound :
    forall a, In a (accounts db) -> (acc_id a <= seq_accounts db)%Z
}.

(** 1 for a line the parser accepts, 0 for one it rejects. *)
Definition parsed_ok (ln : jsstring) : Z :=
  match parsePair (JStr ln) with Ok _ => 1%Z | Throw _ => 0%Z end.

(** The error entry the loop records for a line, if the parser rejects
    it. *)
Definition parse_error_of (ln : jsstring) : list error_entry :=
  match parsePair (JStr ln) with
  | Ok _ => []
  | Throw e => [ErrorEntry ln (message e)]
  end.

(* ================================================================== *)
(** ** Strings: trimming, searching, splitting *)
(* ================================================================== *)

Section StringFacts.

Lemma eqb_eq (a b : jsstring) : JS.eqb a b = true <-> a = b.
Proof.
  unfold JS.eqb. destruct (list_eq_dec N.eq_dec a b); split;
    intros; congruence.
Qed.

Lemma eqb_refl (a : jsstring) : JS.eqb a a = true.
Proof. now apply eqb_eq. Qed.

Lemma eqb_neq (a b : jsstring) : JS.eqb a b = false <-> a <> b.
Proof.
  unfold JS.eqb. destruct (list_eq_dec N.eq_dec a b); split;
    intros; congruence.
Qed.

Lemma trimStart_blank (s : jsstring) :
  Forall (fun c => isWhiteSpace c = true) s -> trimStart s = [].
Proof.
  induction 1 as [|c r Hc _ IH]; simpl.
  - reflexivity.
  - now rewrite Hc.
Qed.

Lemma trim_blank (s : jsstring) :
  Forall (fun c => isWhiteSpace c = true) s -> trim s = [].
Proof.
  intros H. unfold trim, trimEnd. now rewrite (trimStart_blank _ H).
Qed.

(** Every piece of a split is made of characters of the text. *)
Lemma splitLines_Forall (P : N -> Prop) :
  forall n s, (List.length s <= n)%nat -> Forall P s ->
    Forall (Forall P) (splitLines s).
Proof.
  induction n as [|n IH]; intros s Hlen Hs.
  - destruct s; [repeat constructor | simpl in Hlen; lia].
  - destruct s as [|c r]; [repeat constructor|].
    simpl in Hlen. inversion Hs as [|? ? Hc Hr]; subst.
    cbn [splitLines].
    destruct (c =? 10)%N.
    + constructor; [constructor | apply IH; [lia | assumption]].
    + destruct r as [|d r'].
      * repeat constructor; assumption.
      * destruct ((c =? 13) && (d =? 10))%N.
        -- inversion Hr; subst. simpl in Hlen.
           constructor; [constructor | apply IH; [lia | assumption]].
        -- assert (Hrec : Forall (Forall P) (splitLines (d :: r')))
             by (apply IH; [lia | assumption]).
           destruct (splitLines (d :: r')) as [|p ps]; simpl.
           ++ repeat constructor; assumption.
           ++ inversion Hrec; subst. constructor; [constructor|]; assumption.
Qed.

Lemma linesOf_blank (v : jsval) :
  Forall (fun c => isWhiteSpace c = true) (stringOrEmpty v) ->
  linesOf v = [].
Proof.
  intros H. unfold linesOf.
  assert (Hp := splitLines_Forall _ _ _ (le_n _) H).
  induction Hp as [|p ps Hp _ IH]; simpl.
  - reflexivity.
  - now rewrite (trim_blank _ Hp).
Qed.

(** [indexOf] finds the first occurrence. *)
Lemma indexOf_first (c : N) (a b : jsstring) :
  ~ In c a -> indexOf c (a ++ c :: b) = Z.of_nat (List.length a).
Proof.
  induction a as [|x a IH]; intros Hnin; simpl.
  - now rewrite N.eqb_refl.
  - destruct (N.eqb_spec x c) as [->|Hne].
    + exfalso. apply Hnin. now left.
    + rewrite IH by (intro; apply Hnin; now right).
      destruct (Z.ltb_spec (Z.of_nat (List.length a)) 0); lia.
Qed.

Lemma indexOf_absent (c : N) (s : jsstring) :
  ~ In c s -> indexOf c s = (-1)%Z.
Proof.
  induction s as [|x s IH]; intros Hnin; simpl.
  - reflexivity.
  - destruct (N.eqb_spec x c) as [->|Hne].
    + exfalso. apply Hnin. now left.
    + rewrite IH by (intro; apply Hnin; now right). reflexivity.
Qed.

Lemma first_occurrence (c : N) (s : jsstring) :
  ~ In c s \/ exists a b, s = a ++ c :: b /\ ~ In c a.
Proof.
  induction s as [|x s IH].
  - left. intros [].
  - destruct (N.eq_dec x c) as [->|Hne].
    + right. exists [], s. split; [reflexivity | intros []].
    + destruct IH as [Hnin | (a & b & -> & Hnin)].
      * left. intros [H|H]; auto.
      * right. exists (x :: a), b. split; [reflexivity|].
        intros [H|H]; auto.
Qed.

Lemma slice_prefix (a b : jsstring) (c : N) :
  slice (a ++ c :: b) 0 (Z.of_nat (List.length a)) = a.
Proof.
  unfold slice. simpl. rewrite Nat2Z.id, Nat.sub_0_r.
  rewrite firstn_app, Nat.sub_diag, firstn_all. simpl.
  now rewrite app_nil_r.
Qed.

Lemma sliceFrom_suffix (a b : jsstring) (c : N) :
  sliceFrom (a ++ c :: b) (Z.of_nat (List.length a) + 1) = b.
Proof.
  unfold sliceFrom.
  replace (Z.to_nat (Z.of_nat (List.length a) + 1))
    with (List.length a + 1)%nat by lia.
  rewrite skipn_app.
  rewrite skipn_all2 by lia.
  replace (List.length a + 1 - List.length a)%nat with 1%nat by lia.
  reflexivity.
Qed.

Lemma nonEmpty_true (s : jsstring) : nonEmpty s = true <-> s <> [].
Proof. destruct s; simpl; split; congruence. Qed.

End StringFacts.

(* ================================================================== *)
(** ** parsePair *)
(* ================================================================== *)

(** The parser throws nothing but its own two errors. *)
Lemma parsePair_total (v : jsval) :
  (exists login password, parsePair v = Ok (login, password))
  \/ parsePair v = Throw (Error "Use format USERNAME_OR_EMAIL:PASSWORD")
  \/ parsePair v = Throw (Error "Both login and password are required").
Proof.
  unfold parsePair.
  destruct (indexOf colon (trim (stringOrEmpty v)) <=? 0)%Z; [now auto|].
  destruct (_ || _); [now auto|].
  left. eauto.
Qed.

Lemma parsePair_Ok_iff (pair login password : jsstring) :
  parsePair (JStr pair) = Ok (login, password) <->
  exists a b,
    trim pair = a ++ colon :: b /\ ~ In colon a /\ a <> [] /\
    login = trim a /\ password = trim b /\
    login <> [] /\ password <> [].
Proof.
  unfold parsePair. cbn [stringOrEmpty]. split.
  - destruct (first_occurrence colon (trim pair))
      as [Hnin | (a & b & Hs & Hnin)].
    + rewrite (indexOf_absent _ _ Hnin). simpl. discriminate.
    + rewrite Hs, (indexOf_first _ _ b Hnin).
      destruct (Z.leb_spec (Z.of_nat (List.length a)) 0) as [Hle|Hgt];
        [discriminate|].
      rewrite slice_prefix, sliceFrom_suffix.
      destruct (nonEmpty (trim a)) eqn:Ha; [|discriminate].
      destruct (nonEmpty (trim b)) eqn:Hb; [|discriminate].
      simpl. intros [= <- <-]. exists a, b.
      repeat split; try assumption; try (now apply nonEmpty_true).
      intros ->. simpl in Hgt. lia.
  - intros (a & b & Hs & Hnin & Hne & -> & -> & Hl & Hp).
    rewrite Hs, (indexOf_first _ _ b Hnin).
    destruct (Z.leb_spec (Z.of_nat (List.length a)) 0) as [Hle|Hgt].
    + destruct a; [congruence | simpl in Hle; lia].
    + rewrite slice_prefix, sliceFrom_suffix.
      apply nonEmpty_true in Hl, Hp. now rewrite Hl, Hp.
Qed.

(** C7.  [parsePair] splits the trimmed text at its first colon and succeeds
    exactly when that colon has at least one character before it and both
    sides are non-empty after trimming; otherwise it throws one of its two
    validation errors.  So ["user:pass"] gives [("user", "pass")], while
    ["user"], [":pass"] and ["user:"] are rejected. *)
Theorem parsePair_first_colon :
  parsePair (JStr (str "user:pass")) = Ok (str "user", str "pass")
  /\ parsePair (JStr (str "user"))
     = Throw (Error "Use format USERNAME_OR_EMAIL:PASSWORD")
  /\ parsePair (JStr (str ":pass"))
     = Throw (Error "Use format USERNAME_OR_EMAIL:PASSWORD")
  /\ parsePair (JStr (str "user:"))
     = Throw (Error "Both login and password are required")
  /\ (forall pair login password,
        parsePair (JStr pair) = Ok (login, password) <->
        exists a b,
          trim pair = a ++ colon :: b /\ ~ In colon a /\ a <> [] /\
          login = trim a /\ password = trim b /\
          login <> [] /\ password <> [])
  /\ (forall v,
        (exists login password, parsePair v = Ok (login, password))
        \/ parsePair v
           = Throw (Error "Use format USERNAME_OR_EMAIL:PASSWORD")
        \/ parsePair v
           = Throw (Error "Both login and password are required")).
Proof.
  repeat split; try reflexivity.
  - apply parsePair_Ok_iff.
  - apply parsePair_Ok_iff.
  - apply parsePair_total.
Qed.

(* ================================================================== *)
(** ** The NOCASE collation *)
(* ================================================================== *)

Section NocaseFacts.

Lemma fold_ascii_zero (c : N) : fold_ascii c = 0%N <-> c = 0%N.
Proof.
  unfold fold_ascii.
  destruct (N.leb_spec 65 c), (N.leb_spec c 90); simpl; lia.
Qed.

Lemma utf8_length_fold (c : N) : utf8_length (fold_ascii c) = utf8_length c.
Proof.
  unfold fold_ascii, utf8_length.
  destruct (N.leb_spec 65 c), (N.leb_spec c 90); simpl; try reflexivity.
  destruct (N.ltb_spec (c + 32) 128), (N.ltb_spec c 128);
    try reflexivity; lia.
Qed.

Lemma byte_length_fold (a b : jsstring) :
  List.map fold_ascii a = List.map fold_ascii b ->
  byte_length a = byte_length b.
Proof.
  unfold byte_length. revert b.
  induction a as [|x a IH]; intros [|y b] H; try discriminate H;
    [reflexivity|].
  injection H as Hxy Hab. simpl.
  rewrite <- (utf8_length_fold x), <- (utf8_length_fold y), Hxy.
  now rewrite (IH b Hab).
Qed.

Lemma collate_nocase_antisym (a b : jsstring) :
  collate_nocase b a = CompOpp (collate_nocase a b).
Proof.
  revert b. induction a as [|x a IH]; intros [|y b]; simpl;
    try reflexivity.
  rewrite (N.compare_antisym (fold_ascii x) (fold_ascii y)).
  destruct (N.compare_spec (fold_ascii x) (fold_ascii y)) as [E|L|L];
    simpl; try reflexivity.
  destruct (N.eqb_spec x 0) as [->|Hx].
  - assert (Hy : y = 0%N)
      by (apply fold_ascii_zero; rewrite <- E; reflexivity).
    subst y. simpl. apply Nat.compare_antisym.
  - destruct (N.eqb_spec y 0) as [->|Hy]; [|apply IH].
    exfalso. apply Hx. apply fold_ascii_zero. rewrite E. reflexivity.
Qed.

Lemma collate_nocase_refl (a : jsstring) : collate_nocase a a = Eq.
Proof.
  induction a as [|x a IH]; simpl; [reflexivity|].
  rewrite N.compare_refl. destruct (x =? 0)%N; [|exact IH].
  apply Nat.compare_refl.
Qed.

Lemma collate_leb_iff (a b : jsstring) :
  nocase_text_leb a b = true <-> collate_nocase a b <> Gt.
Proof.
  unfold nocase_text_leb. destruct (collate_nocase a b); split;
    congruence.
Qed.

Lemma collate_leb_total (a b : jsstring) :
  nocase_text_leb a b = true \/ nocase_text_leb b a = true.
Proof.
  rewrite !collate_leb_iff, (collate_nocase_antisym a b).
  destruct (collate_nocase a b); simpl; [left | left | right]; congruence.
Qed.

Lemma collate_leb_trans (a b c : jsstring) :
  nocase_text_leb a b = true -> nocase_text_leb b c = true ->
  nocase_text_leb a c = true.
Proof.
  rewrite !collate_leb_iff. revert b c.
  induction a as [|x a IH]; intros [|y b] [|z c]; simpl;
    try congruence.
  destruct (N.compare_spec (fold_ascii x) (fold_ascii y)) as [Exy|Lxy|Lxy];
    destruct (N.compare_spec (fold_ascii y) (fold_ascii z)) as [Eyz|Lyz|Lyz];
    destruct (N.compare_spec (fold_ascii x) (fold_ascii z)) as [Exz|Lxz|Lxz];
    try congruence; try lia.
  destruct (N.eqb_spec x 0) as [->|Hx].
  - assert (Hy : y = 0%N)
      by (apply fold_ascii_zero; rewrite <- Exy; reflexivity).
    assert (Hz : z = 0%N)
      by (apply fold_ascii_zero; rewrite <- Exz; reflexivity).
    subst y z. simpl.
    destruct (Nat.compare_spec (byte_length a) (byte_length b)),
      (Nat.compare_spec (byte_length b) (byte_length c)),
      (Nat.compare_spec (byte_length a) (byte_length c));
      try congruence; lia.
  - destruct (N.eqb_spec y 0) as [->|Hy].
    { exfalso. apply Hx. apply fold_ascii_zero. rewrite Exy. reflexivity. }
    apply IH.
Qed.

Lemma nocase_eqb_iff (a b : jsstring) :
  nocase_eqb a b = true <-> collate_nocase a b = Eq.
Proof.
  unfold nocase_eqb. destruct (collate_nocase a b); split; congruence.
Qed.

Lemma nocase_eqb_leb (a b : jsstring) :
  nocase_eqb a b = true <->
  nocase_text_leb a b = true /\ nocase_text_leb b a = true.
Proof.
  rewrite nocase_eqb_iff, !collate_leb_iff, (collate_nocase_antisym a b).
  destruct (collate_nocase a b); simpl; split; intros H;
    try (split; congruence); try congruence; destruct H; congruence.
Qed.

Lemma nocase_eqb_refl (a : jsstring) : nocase_eqb a a = true.
Proof. apply nocase_eqb_iff, collate_nocase_refl. Qed.

Lemma nocase_eqb_sym (a b : jsstring) :
  nocase_eqb a b = true -> nocase_eqb b a = true.
Proof. rewrite !nocase_eqb_leb. tauto. Qed.

Lemma nocase_eqb_trans (a b c : jsstring) :
  nocase_eqb a b = true -> nocase_eqb b c = true -> nocase_eqb a c = true.
Proof.
  rewrite !nocase_eqb_leb. intros [H1 H2] [H3 H4]. split.
  - exact (collate_leb_trans _ _ _ H1 H3).
  - exact (collate_leb_trans _ _ _ H4 H2).
Qed.

(** Texts that are equal once ASCII letters are folded are equal under
    NOCASE. *)
Lemma nocase_eqb_of_fold (a b : jsstring) :
  List.map fold_ascii a = List.map fold_ascii b -> nocase_eqb a b = true.
Proof.
  intros H. apply nocase_eqb_iff. revert b H.
  induction a as [|x a IH]; intros [|y b] H; try discriminate H;
    [reflexivity|].
  injection H as Hxy Hab. simpl. rewrite Hxy, N.compare_refl.
  destruct (x =? 0)%N; [|now apply IH].
  rewrite (byte_length_fold _ _ Hab). apply Nat.compare_refl.
Qed.

(** Without U+0000, NOCASE equality is equality of the folded texts; with
    it, what follows the first U+0000 counts by its byte length only. *)
Lemma nocase_eqb_without_nul (a b : jsstring) :
  ~ In 0%N a ->
  (nocase_eqb a b = true <-> List.map fold_ascii a = List.map fold_ascii b).
Proof.
  intros Hnul. split; [|apply nocase_eqb_of_fold].
  rewrite nocase_eqb_iff. revert b.
  induction a as [|x a IH]; intros [|y b]; simpl; try discriminate;
    [reflexivity|].
  destruct (N.compare_spec (fold_ascii x) (fold_ascii y)) as [E|L|L];
    try discriminate.
  destruct (N.eqb_spec x 0) as [->|Hx]; [exfalso; apply Hnul; now left|].
  intros H. rewrite E. f_equal. apply IH; [|exact H].
  intros Hin. apply Hnul. now right.
Qed.

Lemma nocase_stops_at_nul :
  nocase_eqb [97; 0; 98]%N [65; 0; 99]%N = true
  /\ nocase_eqb [97; 0; 98]%N [97; 0; 98; 98]%N = false
  /\ nocase_text_leb [97; 0; 122]%N [97; 0; 98; 98]%N = true
  /\ nocase_text_leb [97; 0; 98; 98]%N [97; 0; 122]%N = false.
Proof. repeat split; reflexivity. Qed.

End NocaseFacts.

(* ================================================================== *)
(** ** The store: rowids, lookups, constraint checks *)
(* ================================================================== *)

Section StoreFacts.

Lemma next_rowid_above (seq : Z) (ids : list Z) :
  (seq < next_rowid seq ids)%Z /\
  forall x, In x ids -> (x < next_rowid seq ids)%Z.
Proof.
  unfold next_rowid. induction ids as [|y ids [IHs IHx]]; simpl.
  - split; [lia | intros x []].
  - split; [lia|]. intros x [->|Hx]; [lia|].
    specialize (IHx x Hx). lia.
Qed.

Lemma existsb_false {A} (f : A -> bool) (l : list A) :
  existsb f l = false <-> forall x, In x l -> f x = false.
Proof.
  induction l as [|y l IH]; simpl.
  - split; [intros _ x [] | reflexivity].
  - rewrite orb_false_iff, IH. split.
    + intros [Hy Hl] x [->|Hx]; auto.
    + intros H. split; [apply H; now left | intros x Hx; apply H; now right].
Qed.

Lemma find_none_iff {A} (f : A -> bool) (l : list A) :
  find f l = None <-> forall x, In x l -> f x = false.
Proof.
  split; [apply find_none|].
  induction l as [|y l IH]; simpl; intros H; [reflexivity|].
  rewrite (H y (or_introl eq_refl)). apply IH. intros x Hx. apply H. now right.
Qed.

Lemma find_app_last {A} (f : A -> bool) (l : list A) (x : A) :
  (forall y, In y l -> f y = false) -> f x = true ->
  find f (l ++ [x]) = Some x.
Proof.
  induction l as [|y l IH]; simpl; intros Hl Hx.
  - now rewrite Hx.
  - rewrite (Hl y (or_introl eq_refl)). apply IH; [|assumption].
    intros z Hz. apply Hl. now right.
Qed.

Lemma filter_nonempty {A} (f : A -> bool) (l : list A) :
  existsb f l = true -> filter f l <> [].
Proof.
  intros H Hnil. apply existsb_exists in H as (x & Hin & Hfx).
  assert (Hx : In x (filter f l)) by (apply filter_In; auto).
  rewrite Hnil in Hx. destruct Hx.
Qed.

(** A key column: two rows with the same key are the same row. *)
Lemma key_injective {A} (key : A -> Z) (l : list A) (a b : A) :
  NoDup (List.map key l) -> In a l -> In b l -> key a = key b -> a = b.
Proof.
  induction l as [|x l IH]; simpl; intros Hnd Ha Hb Hk; [destruct Ha|].
  inversion Hnd as [|? ? Hnin Hnd']; subst.
  destruct Ha as [->|Ha], Hb as [->|Hb]; auto.
  - exfalso. apply Hnin. rewrite Hk. now apply in_map.
  - exfalso. apply Hnin. rewrite <- Hk. now apply in_map.
Qed.

Lemma login_clash_other_map (login : option jsstring) (mapId : Z)
    (l : list account_row) :
  (forall a, In a l -> acc_map_id a <> mapId) ->
  existsb (login_clash login mapId) l = false.
Proof.
  intros H. apply existsb_false. intros a Ha. unfold login_clash.
  destruct (acc_login a), login; try reflexivity.
  destruct (Z.eqb_spec (acc_map_id a) mapId) as [E|_];
    [now apply H in Ha | apply andb_false_r].
Qed.

Lemma login_clash_null (mapId : Z) (l : list account_row) :
  existsb (login_clash None mapId) l = false.
Proof.
  apply existsb_false. intros a _. unfold login_clash.
  now destruct (acc_login a).
Qed.

Lemma addAccountToMap_accepts (db : database) (mapId : Z)
    (login password : option jsstring) (label : jsval) :
  existsb (login_clash login mapId) (accounts db) = false ->
  map_exists db mapId = true ->
  addAccountToMap db mapId login password label
  = Ok (with_account db (new_account_row db mapId login password label),
        RunInfo 1 (acc_id (new_account_row db mapId login password label))).
Proof.
  intros Hc Hm. unfold addAccountToMap. now rewrite Hc, Hm.
Qed.

Lemma addAccountToMap_inv (db db' : database) (mapId : Z)
    (login password : option jsstring) (label : jsval) (info : run_info) :
  addAccountToMap db mapId login password label = Ok (db', info) ->
  db' = with_account db (new_account_row db mapId login password label)
  /\ info = RunInfo 1 (acc_id (new_account_row db mapId login password label))
  /\ existsb (login_clash login mapId) (accounts db) = false
  /\ map_exists db mapId = true.
Proof.
  unfold addAccountToMap.
  destruct (existsb _ _); [discriminate|].
  destruct (map_exists db mapId); [|discriminate].
  simpl. intros [= <- <-]. auto.
Qed.

End StoreFacts.

(* ================================================================== *)
(** ** Maps *)
(* ================================================================== *)

(** C5, as the code has it.  [createMap] trims the name.  When a map whose
    name equals the trimmed name under the NOCASE collation of the column
    ([nocase_eqb]: ASCII letters folded, text after a U+0000 counted by
    its byte length) is already stored, it throws the UNIQUE failure of
    [maps.name] and the store stays as it was; otherwise, whatever the
    trimmed name is, the empty one included, it appends the map under a
    rowid larger than every stored one and returns that rowid, and a
    second [createMap] with a name equal to it under NOCASE after trimming
    then throws.  It throws nothing but that UNIQUE failure: no name is
    turned away for being empty. *)
Theorem createMap_trims_and_keeps_names_unique
    (db : database) (name : jsstring) :
  ((exists m, In m (maps db) /\ nocase_eqb (map_name m) (trim name) = true) ->
   createMap db name = Throw (SqliteError (UniqueFailed "maps.name")))
  /\
  ((forall m, In m (maps db) -> nocase_eqb (map_name m) (trim name) = false) ->
   exists id db',
     createMap db name = Ok (db', RunInfo 1 id)
     /\ maps db' = maps db ++ [MapRow id (trim name)]
     /\ accounts db' = accounts db
     /\ (forall m, In m (maps db) -> (map_id_of m < id)%Z)
     /\ getMapById db' id = Some (MapRow id (trim name))
     /\ forall name2,
          nocase_eqb (trim name) (trim name2) = true ->
          createMap db' name2
          = Throw (SqliteError (UniqueFailed "maps.name")))
  /\
  (forall e,
     createMap db name = Throw e ->
     e = SqliteError (UniqueFailed "maps.name")
     /\ exists m,
          In m (maps db) /\ nocase_eqb (map_name m) (trim name) = true).
Proof.
  split; [|split].
  - intros (m & Hin & Hm). unfold createMap, name_taken.
    assert (H : existsb (fun m => nocase_eqb (map_name m) (trim name))
                        (maps db) = true)
      by (apply existsb_exists; eauto).
    now rewrite H.
  - intros Hfree. unfold createMap, name_taken.
    assert (H : existsb (fun m => nocase_eqb (map_name m) (trim name))
                        (maps db) = false)
      by (now apply existsb_false).
    rewrite H.
    set (id := next_rowid (seq_maps db) (List.map map_id_of (maps db))).
    assert (Hid : forall m, In m (maps db) -> (map_id_of m < id)%Z).
    { intros m Hm. apply next_rowid_above. now apply in_map. }
    eexists id, _. split; [reflexivity|]. simpl.
    repeat split; try assumption.
    + unfold getMapById. simpl. apply find_app_last.
      * intros y Hy. specialize (Hid y Hy). simpl. lia.
      * simpl. apply Z.eqb_refl.
    + intros name2 Heq. unfold createMap, name_taken. simpl.
      rewrite existsb_app. simpl. rewrite Heq.
      now rewrite orb_true_r.
  - intros e. unfold createMap, name_taken.
    destruct (existsb (fun m => nocase_eqb (map_name m) (trim name))
                      (maps db)) eqn:H; [|discriminate].
    intros [= <-]. split; [reflexivity|].
    now apply existsb_exists in H.
Qed.

(** Witness of [createMap_trims_and_keeps_names_unique] on [db_one_map],
    whose map is named [Main]: [" main "] is refused, [New] is stored. *)
Lemma createMap_trims_and_keeps_names_unique_witness :
  createMap db_one_map (str " main ")
  = Throw (SqliteError (UniqueFailed "maps.name"))
  /\ exists id db',
       createMap db_one_map (str "New") = Ok (db', RunInfo 1 id)
       /\ getMapById db' id = Some (MapRow id (str "New")).
Proof.
  split.
  - apply (proj1 (createMap_trims_and_keeps_names_unique
                    db_one_map (str " main "))).
    exists (MapRow 1 (str "Main")). split; [now left | reflexivity].
  - destruct (proj1 (proj2 (createMap_trims_and_keeps_names_unique
                              db_one_map (str "New"))))
      as (id & db' & Hok & _ & _ & _ & Hget & _).
    + intros m [<-|[]]. reflexivity.
    + exists id, db'. split; assumption.
Defined.

(** NOCASE at work on names that hold U+0000: after [a\0z], the name
    [A\0y] is a duplicate (same length after the U+0000) and [getMapByName]
    finds the stored map under it, while [a\0bb] is another name; the two
    are listed shorter tail first. *)
Lemma names_with_nul :
  createMap db_nul_names [65; 0; 121]%N
  = Throw (SqliteError (UniqueFailed "maps.name"))
  /\ getMapByName db_nul_names [65; 0; 121]%N
     = Some (MapRow 1 [97; 0; 122]%N)
  /\ List.map mc_id (listMapsWithCounts db_nul_names) = [1%Z; 2%Z].
Proof. repeat split; reflexivity. Qed.

(** C5, the claim refuted as stated: given a name that is empty after
    trimming, [createMap] throws no validation error; it stores a map with
    the empty name. *)
Lemma createMap_accepts_blank_name :
  trim (str "   ") = []
  /\ createMap empty_database (str "   ")
     = Ok (Database [MapRow 1 []] [] 1 0, RunInfo 1 1).
Proof. split; reflexivity. Qed.

(** C6.  Deleting a stored map removes, in the one transition of the store,
    the map row and every account that references it: none of those
    accounts is found by [getAccountById] afterwards, no account row
    references the map, and the accounts of the other maps stay. *)
Theorem deleteMapById_cascades (db : database) (M : Z) :
  NoDup (List.map acc_id (accounts db)) ->
  map_exists db M = true ->
  getMapById (fst (deleteMapById db M)) M = None
  /\ (forall a, In a (accounts db) -> acc_map_id a = M ->
        getAccountById (fst (deleteMapById db M)) (acc_id a) = None)
  /\ (forall a, In a (accounts (fst (deleteMapById db M))) ->
        acc_map_id a <> M /\ In a (accounts db))
  /\ (forall a, In a (accounts db) -> acc_map_id a <> M ->
        In a (accounts (fst (deleteMapById db M)))).
Proof.
  intros Hkey Hex. unfold deleteMapById.
  assert (Hne := filter_nonempty _ _ Hex).
  destruct (filter (fun m => (map_id_of m =? M)%Z) (maps db)) as [|m0 rest];
    [congruence|]. clear Hne. cbn [fst].
  assert (Hkept : forall a,
             In a (filter (fun a => negb (acc_map_id a =? M)%Z) (accounts db))
             <-> In a (accounts db) /\ acc_map_id a <> M).
  { intros a. rewrite filter_In, negb_true_iff, Z.eqb_neq. tauto. }
  repeat split.
  - unfold getMapById. cbn [maps]. apply find_none_iff.
    intros m Hm. apply filter_In in Hm as [_ Hm].
    now apply negb_true_iff in Hm.
  - intros a Ha HM. unfold getAccountById. cbn [accounts].
    destruct (find _ _) as [b|] eqn:Hf; [|reflexivity].
    apply find_some in Hf as [Hb Hid]. apply Hkept in Hb as [Hb HbM].
    apply Z.eqb_eq in Hid.
    assert (b = a) by (apply (key_injective acc_id (accounts db)); auto).
    subst b. contradiction.
  - now apply Hkept.
  - now apply Hkept.
  - intros a Ha HM. apply Hkept. auto.
Qed.

(** Witness of [deleteMapById_cascades] on the store [db_alice]: map 1 and
    its account go together. *)
Lemma deleteMapById_cascades_witness :
  getMapById (fst (deleteMapById db_alice 1)) 1 = None
  /\ getAccountById (fst (deleteMapById db_alice 1)) (acc_id alice_row) = None.
Proof.
  assert (Hkey : NoDup (List.map acc_id (accounts db_alice)))
    by (simpl; constructor; [intros [] | constructor]).
  destruct (deleteMapById_cascades db_alice 1 Hkey eq_refl)
    as (Hmap & Hacc & _).
  split; [exact Hmap|].
  apply Hacc; [simpl; now left | reflexivity].
Defined.

(* ================================================================== *)
(** ** Accounts *)
(* ================================================================== *)

(** C3, as the code has it.  The unique index compares logins as plain
    TEXT, so uniqueness is exact (letter case counts) and scoped to the
    map: where map [M] holds an account with login [L], another insert of
    [L] into [M] throws the UNIQUE failure; an insert of a login into any
    stored map that holds no account with exactly that login ([L] into a
    different map, say) goes through; and an insert with a NULL login into
    a stored map goes through whatever the map holds. *)
Theorem login_unique_exact_per_map
    (db : database) (M : Z) (L : jsstring) (r : account_row)
    (password : option jsstring) (label : jsval) :
  In r (accounts db) -> acc_login r = Some L -> acc_map_id r = M ->
  addAccountToMap db M (Some L) password label
  = Throw (SqliteError (UniqueFailed "accounts.login, accounts.map_id"))
  /\ (forall M' L',
        map_exists db M' = true ->
        (forall a, In a (accounts db) -> acc_map_id a = M' ->
                   acc_login a <> Some L') ->
        exists db' info,
          addAccountToMap db M' (Some L') password label = Ok (db', info)
          /\ accounts db'
             = accounts db
               ++ [new_account_row db M' (Some L') password label])
  /\ (forall M',
        map_exists db M' = true ->
        exists db' info,
          addAccountToMap db M' None password label = Ok (db', info)
          /\ accounts db'
             = accounts db ++ [new_account_row db M' None password label]).
Proof.
  intros Hin HL HM. repeat split.
  - unfold addAccountToMap.
    assert (H : existsb (login_clash (Some L) M) (accounts db) = true).
    { apply existsb_exists. exists r. split; [assumption|].
      unfold login_clash. rewrite HL, HM, eqb_refl, Z.eqb_refl.
      reflexivity. }
    now rewrite H.
  - intros M' L' Hex Hfree.
    rewrite addAccountToMap_accepts; [eauto | | assumption].
    apply existsb_false. intros a Ha. unfold login_clash.
    destruct (acc_login a) as [l|] eqn:El; [|reflexivity].
    destruct (Z.eqb_spec (acc_map_id a) M') as [E|_];
      [|apply andb_false_r].
    rewrite andb_true_r. apply eqb_neq. intros ->.
    now apply (Hfree a Ha E).
  - intros M' Hex.
    rewrite addAccountToMap_accepts;
      [eauto | apply login_clash_null | assumption].
Qed.

(** Witness of [login_unique_exact_per_map] on [db_alice]: a second [alice]
    in map 1 is refused, [alice] in map 2 is accepted. *)
Lemma login_unique_exact_per_map_witness :
  addAccountToMap db_alice 1 (Some (str "alice")) (Some (str "x")) JNull
  = Throw (SqliteError (UniqueFailed "accounts.login, accounts.map_id"))
  /\ exists db' info,
       addAccountToMap db_alice 2 (Some (str "alice")) (Some (str "x")) JNull
       = Ok (db', info).
Proof.
  destruct (login_unique_exact_per_map db_alice 1 (str "alice") alice_row
              (Some (str "x")) JNull
              (or_introl eq_refl) eq_refl eq_refl)
    as (Hdup & Hother & _).
  split; [exact Hdup|].
  destruct (Hother 2%Z (str "alice") eq_refl) as (db' & info & H & _).
  - intros a [<-|[]] E. discriminate E.
  - exists db', info. exact H.
Defined.

(** C3, the claim refuted as stated: map 1 of [db_alice] holds the login
    [alice]; [Alice] equals it up to letter case, and the insert of
    [Alice] into map 1 is accepted. *)
Lemma login_uniqueness_is_case_sensitive :
  In alice_row (accounts db_alice)
  /\ acc_login alice_row = Some (str "alice")
  /\ acc_map_id alice_row = 1%Z
  /\ nocase_eqb (str "Alice") (str "alice") = true
  /\ addAccountToMap db_alice 1 (Some (str "Alice")) (Some (str "pw")) JNull
     = Ok (Database (maps db_alice)
             [alice_row;
              AccountRow 2 (Some (str "Alice")) 1 None
                         (Some (str "Alice")) (Some (str "pw")) None]
             2 2,
           RunInfo 1 2).
Proof. repeat split; try reflexivity. simpl. now left. Qed.

Lemma bulkStep_appends (mapId : Z) (db : database) (res : bulk_results)
    (ln : jsstring) :
  (fst (bulkStep mapId (db, res) ln) = db
   /\ added (snd (bulkStep mapId (db, res) ln)) = added res)
  \/ exists row,
       bulk_row_ok mapId row
       /\ fst (bulkStep mapId (db, res) ln) = with_account db row
       /\ added (snd (bulkStep mapId (db, res) ln)) = (added res + 1)%Z.
Proof.
  unfold bulkStep.
  destruct (parsePair (JStr ln)) as [[login password]|e] eqn:Hp; cbn [bind].
  - cbn [fst snd].
    destruct (addAccountToMap db mapId (Some login) (Some password) JNull)
      as [[db' info]|e] eqn:Ha.
    + right. apply addAccountToMap_inv in Ha as (-> & _ & _ & _).
      eexists. split; [|split; reflexivity].
      unfold bulk_row_ok, new_account_row. simpl.
      repeat split; congruence.
    + left. destruct (_ || _); auto.
  - left. destruct (_ || _); auto.
Qed.

Lemma bulk_fold_appends (mapId : Z) (lines : list jsstring) :
  forall (db : database) (res : bulk_results),
  exists new,
    accounts (fst (fold_left (bulkStep mapId) lines (db, res)))
    = accounts db ++ new
    /\ maps (fst (fold_left (bulkStep mapId) lines (db, res))) = maps db
    /\ Forall (bulk_row_ok mapId) new
    /\ added (snd (fold_left (bulkStep mapId) lines (db, res)))
       = (added res + Z.of_nat (List.length new))%Z.
Proof.
  induction lines as [|ln lines IH]; intros db res; cbn [fold_left].
  - exists []. rewrite app_nil_r. simpl. repeat split; [constructor | lia].
  - destruct (bulkStep mapId (db, res) ln) as [db1 res1] eqn:Hs.
    destruct (IH db1 res1) as (new & Hacc & Hmaps & Hok & Hadd).
    destruct (bulkStep_appends mapId db res ln) as [[Hd Hr] | (row & Hrow & Hd & Hr)];
      rewrite Hs in Hd, Hr; cbn [fst snd] in Hd, Hr; subst db1.
    + exists new. rewrite Hadd, Hr. auto.
    + exists (row :: new). rewrite Hacc, Hmaps, Hadd, Hr.
      cbn [with_account accounts maps]. rewrite <- app_assoc.
      repeat split; [constructor; assumption | simpl List.length; lia].
Qed.

(** C8.  Every account insert keeps the legacy columns in step: the row
    that [addAccountToMap] appends has [name] equal to the label when one
    is given (a non-empty string) and to the login otherwise, which is the
    effective label of the stored row, and has NULL in [data]; every row a
    bulk import appends has [name] equal to its login, no label and NULL
    in [data]. *)
Theorem inserts_keep_legacy_columns_in_step :
  (forall db mapId login password label db' info,
      addAccountToMap db mapId login password label = Ok (db', info) ->
      exists row,
        accounts db' = accounts db ++ [row]
        /\ acc_id row = lastInsertRowid info
        /\ acc_name row
           = (if truthy label then Some (stringOrEmpty label) else login)
        /\ acc_name row
           = coalesce3 (acc_label row) (acc_login row) (acc_name row)
        /\ acc_data row = None)
  /\ (forall db mapId pairsText,
        exists new,
          accounts (fst (bulkAddPairs db mapId pairsText))
          = accounts db ++ new
          /\ added (snd (bulkAddPairs db mapId pairsText))
             = Z.of_nat (List.length new)
          /\ Forall (fun row =>
                       acc_name row = acc_login row
                       /\ acc_name row
                          = coalesce3 (acc_label row) (acc_login row)
                                      (acc_name row)
                       /\ acc_data row = None) new).
Proof.
  split.
  - intros db mapId login password label db' info H.
    apply addAccountToMap_inv in H as (-> & -> & _ & _).
    eexists. split; [reflexivity|]. cbn.
    repeat split.
    + destruct label as [| | | | |[|c s]]; reflexivity.
    + destruct label as [| | | | |[|c s]]; try reflexivity;
        destruct login; reflexivity.
  - intros db mapId pairsText. unfold bulkAddPairs.
    destruct (bulk_fold_appends mapId (linesOf pairsText) db
                (BulkResults 0 0 []))
      as (new & Hacc & _ & Hok & Hadd).
    exists new. split; [assumption|]. split; [simpl in Hadd; lia|].
    eapply Forall_impl; [|exact Hok].
    intros row (_ & Hlogin & Hname & Hlabel & Hdata).
    repeat split; try assumption.
    rewrite Hlabel, Hname. simpl. now destruct (acc_login row).
Qed.

(** Witness of [inserts_keep_legacy_columns_in_step]: a labelled insert
    into [db_one_map]. *)
Lemma inserts_keep_legacy_columns_in_step_witness :
  exists row,
    accounts (with_account db_one_map
                (new_account_row db_one_map 1 (Some (str "u"))
                   (Some (str "p")) (JStr (str "Work"))))
    = accounts db_one_map ++ [row]
    /\ acc_name row = Some (str "Work")
    /\ acc_data row = None.
Proof.
  destruct inserts_keep_legacy_columns_in_step as [Hadd _].
  destruct (Hadd db_one_map 1%Z (Some (str "u")) (Some (str "p"))
              (JStr (str "Work")) _ _ eq_refl)
    as (row & Hacc & _ & Hname & _ & Hdata).
  exists row. repeat split; assumption.
Defined.

(** C9.  A falsy label (the empty string, null, undefined, ...) is treated
    as no label: the insert behaves exactly as with [undefined], and the
    row it appends has NULL in [label] and the login in [name]. *)
Theorem falsy_label_is_absent
    (db : database) (mapId : Z) (login password : option jsstring)
    (label : jsval) :
  truthy label = false ->
  addAccountToMap db mapId login password label
  = addAccountToMap db mapId login password JUndefined
  /\ forall db' info,
       addAccountToMap db mapId login password label = Ok (db', info) ->
       exists row,
         accounts db' = accounts db ++ [row]
         /\ acc_label row = None
         /\ acc_name row = login
         /\ acc_login row = login.
Proof.
  intros Hf.
  assert (Hor : forall d, orElse label d = d).
  { intros d. destruct label as [| | | | |[|c s]];
      try reflexivity; discriminate Hf. }
  assert (Hrow : new_account_row db mapId login password label
                 = new_account_row db mapId login password JUndefined).
  { unfold new_account_row. now rewrite !Hor. }
  split.
  - unfold addAccountToMap. now rewrite Hrow.
  - intros db' info H. apply addAccountToMap_inv in H as (-> & _ & _ & _).
    eexists. split; [reflexivity|]. rewrite Hrow. auto.
Qed.

(** Witness of [falsy_label_is_absent]: the empty string as label. *)
Lemma falsy_label_is_absent_witness :
  addAccountToMap db_one_map 1 (Some (str "u")) (Some (str "p")) (JStr [])
  = addAccountToMap db_one_map 1 (Some (str "u")) (Some (str "p")) JUndefined.
Proof.
  exact (proj1 (falsy_label_is_absent db_one_map 1 (Some (str "u"))
                  (Some (str "p")) (JStr []) eq_refl)).
Defined.

(* ================================================================== *)
(** ** Bulk import *)
(* ================================================================== *)

Section BulkFacts.

Variable mapId : Z.

Lemma bulkStep_added (db : database) (res : bulk_results)
    (ln login password : jsstring) :
  parsePair (JStr ln) = Ok (login, password) ->
  existsb (login_clash (Some login) mapId) (accounts db) = false ->
  map_exists db mapId = true ->
  bulkStep mapId (db, res) ln
  = (with_account db
       (new_account_row db mapId (Some login) (Some password) JNull),
     BulkResults (added res + 1) (duplicates res) (errors res)).
Proof.
  intros Hp Hc Hm. unfold bulkStep. rewrite Hp. cbn [bind fst snd].
  now rewrite addAccountToMap_accepts.
Qed.

Lemma bulkStep_duplicate (db : database) (res : bulk_results)
    (ln login password : jsstring) :
  parsePair (JStr ln) = Ok (login, password) ->
  existsb (login_clash (Some login) mapId) (accounts db) = true ->
  bulkStep mapId (db, res) ln
  = (db, BulkResults (added res) (duplicates res + 1) (errors res)).
Proof.
  intros Hp Hc. unfold bulkStep. rewrite Hp. cbn [bind fst snd].
  unfold addAccountToMap. rewrite Hc. reflexivity.
Qed.

(** A line the parser rejects lands in [errors], with the parser's
    message: neither message holds [UNIQUE] or [constraint]. *)
Lemma bulkStep_malformed (db : database) (res : bulk_results)
    (ln : jsstring) (e : exn) :
  parsePair (JStr ln) = Throw e ->
  bulkStep mapId (db, res) ln
  = (db, BulkResults (added res) (duplicates res)
           (errors res ++ [ErrorEntry ln (message e)])).
Proof.
  intros Hp. unfold bulkStep. rewrite Hp. cbn [bind].
  destruct (parsePair_total (JStr ln)) as [(l & p & H) | [H | H]];
    rewrite Hp in H; [discriminate | |]; injection H as ->; reflexivity.
Qed.

End BulkFacts.

(** C1.  Into a stored map that holds no account, the bulk import of the
    lines [a:1], [a:1], [b:2], [malformed] adds two accounts ([a] and [b],
    in that order), counts one duplicate and reports one error, whose line
    is [malformed]. *)
Theorem bulk_import_classifies_in_order (db : database) (M : Z) :
  map_exists db M = true ->
  (forall a, In a (accounts db) -> acc_map_id a <> M) ->
  exists rowa rowb msg,
    bulkAddPairs db M
      (JStr (joinLines [str "a:1"; str "a:1"; str "b:2"; str "malformed"]))
    = (Database (maps db) (accounts db ++ [rowa; rowb])
                (seq_maps db) (acc_id rowb),
       BulkResults 2 1 [ErrorEntry (str "malformed") msg])
    /\ acc_login rowa = Some (str "a") /\ acc_password rowa = Some (str "1")
    /\ acc_login rowb = Some (str "b") /\ acc_password rowb = Some (str "2")
    /\ acc_map_id rowa = M /\ acc_map_id rowb = M.
Proof.
  intros Hex Hempty. unfold bulkAddPairs.
  change (linesOf _)
    with [str "a:1"; str "a:1"; str "b:2"; str "malformed"].
  cbn [fold_left].
  assert (Hfree := fun login => login_clash_other_map login M _ Hempty).
  (* a:1 is added *)
  rewrite (bulkStep_added M db _ (str "a:1") (str "a") (str "1")
             eq_refl (Hfree _) Hex).
  set (rowa := new_account_row db M (Some (str "a")) (Some (str "1")) JNull).
  set (db1 := with_account db rowa).
  (* a:1 again is a duplicate *)
  rewrite (bulkStep_duplicate M db1 _ (str "a:1") (str "a") (str "1") eq_refl).
  2:{ unfold db1, with_account. cbn [accounts]. rewrite existsb_app.
      cbn. rewrite Z.eqb_refl. apply orb_true_r. }
  (* b:2 is added *)
  rewrite (bulkStep_added M db1 _ (str "b:2") (str "b") (str "2") eq_refl).
  2:{ unfold db1, with_account. cbn [accounts]. rewrite existsb_app.
      rewrite (Hfree _). reflexivity. }
  2:{ exact Hex. }
  set (rowb := new_account_row db1 M (Some (str "b")) (Some (str "2")) JNull).
  (* malformed is reported *)
  rewrite (bulkStep_malformed M _ _ (str "malformed") _ eq_refl).
  exists rowa, rowb. eexists.
  split; [|repeat split; reflexivity].
  unfold with_account, db1, with_account. cbn.
  rewrite <- app_assoc. reflexivity.
Qed.

(** Witness of [bulk_import_classifies_in_order] on [db_one_map]. *)
Lemma bulk_import_classifies_in_order_witness :
  exists rowa rowb msg,
    bulkAddPairs db_one_map 1
      (JStr (joinLines [str "a:1"; str "a:1"; str "b:2"; str "malformed"]))
    = (Database (maps db_one_map) (accounts db_one_map ++ [rowa; rowb])
                (seq_maps db_one_map) (acc_id rowb),
       BulkResults 2 1 [ErrorEntry (str "malformed") msg]).
Proof.
  destruct (bulk_import_classifies_in_order db_one_map 1 eq_refl)
    as (rowa & rowb & msg & H & _).
  - intros a [].
  - exists rowa, rowb, msg. exact H.
Defined.

(** C2, the code at a map id that is not stored: the foreign key refuses
    the insert of the well-formed line [a:1], the engine's message holds
    the word [constraint], and the line is counted under [duplicates];
    nothing is recorded under [errors]. *)
Theorem bulk_counts_foreign_key_failure_as_duplicate :
  map_exists db_one_map 99 = false
  /\ addAccountToMap db_one_map 99 (Some (str "a")) (Some (str "1")) JNull
     = Throw (SqliteError ForeignKeyFailed)
  /\ bulkAddPairs db_one_map 99 (JStr (str "a:1"))
     = (db_one_map, BulkResults 0 1 []).
Proof. repeat split; reflexivity. Qed.

(** C10.  A text without a non-blank line, that is, made of white space
    and line ends only (the empty text and null included), imports
    nothing: the summary is all zero and the store is the one given,
    whatever the map id. *)
Theorem bulk_import_of_blank_text_is_noop
    (db : database) (mapId : Z) (pairsText : jsval) :
  Forall (fun c => isWhiteSpace c = true) (stringOrEmpty pairsText) ->
  bulkAddPairs db mapId pairsText = (db, BulkResults 0 0 []).
Proof.
  intros H. unfold bulkAddPairs. now rewrite (linesOf_blank _ H).
Qed.

(** Witness of [bulk_import_of_blank_text_is_noop]: blanks, a tab and line
    ends of both kinds, for a map id that is not stored; and null. *)
Lemma bulk_import_of_blank_text_is_noop_witness :
  bulkAddPairs db_one_map 99 (JStr [32; 10; 9; 13; 10; 32]%N)
  = (db_one_map, BulkResults 0 0 [])
  /\ bulkAddPairs db_one_map 99 JNull = (db_one_map, BulkResults 0 0 []).
Proof.
  split.
  - apply bulk_import_of_blank_text_is_noop.
    repeat constructor.
  - apply bulk_import_of_blank_text_is_noop. constructor.
Defined.

(* ================================================================== *)
(** ** Listing the accounts of a map *)
(* ================================================================== *)

Section OrderFacts.

Lemma binary_leb_total (a b : jsstring) :
  binary_leb a b = true \/ binary_leb b a = true.
Proof.
  revert b. induction a as [|x a IH]; intros [|y b]; simpl; auto.
  destruct (N.ltb_spec x y), (N.ltb_spec y x); auto; lia.
Qed.

Lemma binary_leb_trans (a b c : jsstring) :
  binary_leb a b = true -> binary_leb b c = true -> binary_leb a c = true.
Proof.
  revert b c. induction a as [|x a IH]; intros [|y b] [|z c]; simpl;
    try congruence.
  destruct (N.ltb_spec x y), (N.ltb_spec y x), (N.ltb_spec y z),
    (N.ltb_spec z y), (N.ltb_spec x z), (N.ltb_spec z x);
    try congruence; try lia.
  apply IH.
Qed.

Lemma listing_leb_total (x y : account_listing) :
  listing_leb x y = true \/ listing_leb y x = true.
Proof.
  unfold listing_leb, sql_leb.
  destruct (li_label x), (li_label y); auto. apply binary_leb_total.
Qed.

Lemma listing_leb_trans (x y z : account_listing) :
  listing_leb x y = true -> listing_leb y z = true -> listing_leb x z = true.
Proof.
  unfold listing_leb, sql_leb.
  destruct (li_label x), (li_label y), (li_label z); try congruence.
  apply binary_leb_trans.
Qed.

Lemma insert_sorted_perm (x : account_listing) (l : list account_listing) :
  Permutation (insert_sorted x l) (x :: l).
Proof.
  induction l as [|y l IH]; simpl.
  - apply Permutation_refl.
  - destruct (listing_leb x y).
    + apply Permutation_refl.
    + eapply perm_trans; [apply perm_skip, IH | apply perm_swap].
Qed.

Lemma orderByLabel_perm (l : list account_listing) :
  Permutation (orderByLabel l) l.
Proof.
  induction l as [|x l IH]; simpl.
  - constructor.
  - eapply perm_trans; [apply insert_sorted_perm | now apply perm_skip].
Qed.

Lemma insert_sorted_sorted (x : account_listing) (l : list account_listing) :
  StronglySorted (fun a b => listing_leb a b = true) l ->
  StronglySorted (fun a b => listing_leb a b = true) (insert_sorted x l).
Proof.
  induction 1 as [|y l Hl IH Hy]; simpl.
  - repeat constructor.
  - destruct (listing_leb x y) eqn:Hxy.
    + constructor; [now constructor|].
      constructor; [assumption|].
      eapply Forall_impl; [|exact Hy].
      intros z Hz. now apply (listing_leb_trans x y z).
    + constructor; [assumption|].
      apply (Permutation_Forall (Permutation_sym (insert_sorted_perm x l))).
      constructor; [|assumption].
      destruct (listing_leb_total x y); congruence.
Qed.

Lemma orderByLabel_sorted (l : list account_listing) :
  StronglySorted (fun a b => listing_leb a b = true) (orderByLabel l).
Proof.
  induction l as [|x l IH]; simpl.
  - constructor.
  - now apply insert_sorted_sorted.
Qed.

Lemma firstn_incl {A} (n : nat) (l : list A) :
  forall x, In x (firstn n l) -> In x l.
Proof.
  revert l. induction n as [|n IH]; intros [|y l] x H; simpl in H;
    try contradiction.
  destruct H as [<-|H]; [now left | right; now apply IH].
Qed.

Lemma firstn_sorted {A} (R : A -> A -> Prop) (n : nat) (l : list A) :
  StronglySorted R l -> StronglySorted R (firstn n l).
Proof.
  intros H. revert n. induction H as [|y l Hl IH Hy]; intros [|n]; simpl;
    try constructor.
  - apply IH.
  - apply Forall_forall. intros x Hx. apply firstn_incl in Hx.
    revert x Hx. now apply Forall_forall.
Qed.

End OrderFacts.

(** C4, as the code has it.  For a bound that is not negative,
    [listAccountsByMapId] returns at most [limit] rows, each the listing
    (id, effective label, login, password) of an account of that map,
    in ascending order of the effective label under the store's BINARY
    comparison, NULL labels first; when the bound is at least the number
    of accounts of the map, every one of them is listed once; for a map
    without accounts the result is empty. *)
Theorem listAccountsByMapId_orders_by_binary_label
    (db : database) (mapId limit : Z) :
  (0 <= limit)%Z ->
  (Z.of_nat (List.length (listAccountsByMapId db mapId limit)) <= limit)%Z
  /\ StronglySorted
       (fun x y => sql_leb (li_label x) (li_label y) = true)
       (listAccountsByMapId db mapId limit)
  /\ (forall x, In x (listAccountsByMapId db mapId limit) ->
        exists a, In a (accounts db) /\ acc_map_id a = mapId
                  /\ x = listing_of a
                  /\ li_label x
                     = coalesce3 (acc_label a) (acc_login a) (acc_name a))
  /\ ((Z.of_nat (List.length
                   (filter (fun a => (acc_map_id a =? mapId)%Z)
                           (accounts db))) <= limit)%Z ->
      Permutation (listAccountsByMapId db mapId limit)
        (List.map listing_of
           (filter (fun a => (acc_map_id a =? mapId)%Z) (accounts db))))
  /\ ((forall a, In a (accounts db) -> acc_map_id a <> mapId) ->
      listAccountsByMapId db mapId limit = []).
Proof.
  intros Hlim. unfold listAccountsByMapId, sql_limit.
  destruct (Z.ltb_spec limit 0) as [Hneg|_]; [lia|].
  set (rows := filter (fun a => (acc_map_id a =? mapId)%Z) (accounts db)).
  repeat split.
  - rewrite length_firstn. lia.
  - apply firstn_sorted. apply orderByLabel_sorted.
  - intros x Hx. apply firstn_incl in Hx.
    apply (Permutation_in _ (orderByLabel_perm _)) in Hx.
    apply in_map_iff in Hx as (a & <- & Ha).
    apply filter_In in Ha as [Ha HM]. apply Z.eqb_eq in HM.
    exists a. auto.
  - intros Hall. rewrite firstn_all2; [apply orderByLabel_perm|].
    rewrite (Permutation_length (orderByLabel_perm _)), length_map. lia.
  - intros Hnone.
    assert (Hrows : rows = []).
    { unfold rows. destruct (filter _ _) as [|a l] eqn:Hf; [reflexivity|].
      assert (Ha : In a (filter (fun a => (acc_map_id a =? mapId)%Z)
                           (accounts db)))
        by (rewrite Hf; now left).
      apply filter_In in Ha as [Ha HM]. apply Z.eqb_eq in HM.
      now apply Hnone in Ha. }
    rewrite Hrows. simpl. apply firstn_nil.
Qed.

(** Witness of [listAccountsByMapId_orders_by_binary_label]: the two
    accounts of [db_mixed_case] under the default bound of 250. *)
Lemma listAccountsByMapId_orders_by_binary_label_witness :
  (Z.of_nat (List.length (listAccountsByMapId db_mixed_case 1 250)) <= 250)%Z
  /\ StronglySorted
       (fun x y => sql_leb (li_label x) (li_label y) = true)
       (listAccountsByMapId db_mixed_case 1 250).
Proof.
  destruct (listAccountsByMapId_orders_by_binary_label db_mixed_case 1 250)
    as (Hlen & Hsorted & _).
  - lia.
  - split; assumption.
Defined.

(** C4, the claim refuted as stated: the accounts labelled [a] and [B] of
    [db_mixed_case] are listed [B] first, which is not ascending when
    letter case is ignored. *)
Lemma listing_order_is_case_sensitive :
  listAccountsByMapId db_mixed_case 1 250
  = [AccountListing 2 (Some (str "B")) (Some (str "u2")) (Some (str "p2"));
     AccountListing 1 (Some (str "a")) (Some (str "u1")) (Some (str "p1"))]
  /\ ~ StronglySorted
         (fun x y => nocase_leb (li_label x) (li_label y) = true)
         (listAccountsByMapId db_mixed_case 1 250).
Proof.
  split; [reflexivity|].
  intros H. inversion H as [|x l _ Hall]; subst.
  inversion Hall as [|y l' Hxy _]; subst.
  discriminate Hxy.
Qed.

(* ================================================================== *)
(** ** Trimmed text and the parser's results *)
(* ================================================================== *)

Section TrimFacts.

Lemma trimStart_length (s : jsstring) :
  (List.length (trimStart s) <= List.length s)%nat.
Proof.
  induction s as [|c r IH]; simpl; [lia|].
  destruct (isWhiteSpace c); simpl; lia.
Qed.

Lemma trimEnd_length (s : jsstring) :
  (List.length (trimEnd s) <= List.length s)%nat.
Proof.
  unfold trimEnd. rewrite length_rev.
  rewrite <- (length_rev s). apply trimStart_length.
Qed.

Lemma trimStart_fixed (c : N) (r : jsstring) :
  isWhiteSpace c = false -> trimStart (c :: r) = c :: r.
Proof. intros H. simpl. now rewrite H. Qed.

(** What [trimStart] returns starts with a character that is kept. *)
Lemma trimStart_head (s : jsstring) :
  trimStart s = []
  \/ exists c r, trimStart s = c :: r /\ isWhiteSpace c = false.
Proof.
  induction s as [|c r IH]; simpl; [now left|].
  destruct (isWhiteSpace c) eqn:E; [assumption|].
  right. eauto.
Qed.

Lemma trimStart_app (a b : jsstring) :
  trimStart a <> [] -> trimStart (a ++ b) = trimStart a ++ b.
Proof.
  induction a as [|c r IH]; simpl; [congruence|].
  destruct (isWhiteSpace c); [assumption | reflexivity].
Qed.

Lemma trimEnd_app (a b : jsstring) :
  trimEnd b <> [] -> trimEnd (a ++ b) = a ++ trimEnd b.
Proof.
  unfold trimEnd. intros H. rewrite rev_app_distr, trimStart_app.
  - now rewrite rev_app_distr, rev_involutive.
  - intros E. apply H. now rewrite E.
Qed.

Lemma trimStart_snoc (l : jsstring) (c : N) :
  isWhiteSpace c = false -> trimStart (l ++ [c]) = trimStart l ++ [c].
Proof.
  intros Hc. induction l as [|x l IH]; simpl.
  - now rewrite Hc.
  - destruct (isWhiteSpace x); [apply IH | reflexivity].
Qed.

Lemma trimEnd_cons (c : N) (r : jsstring) :
  isWhiteSpace c = false -> trimEnd (c :: r) = c :: trimEnd r.
Proof.
  intros Hc. unfold trimEnd. simpl rev.
  rewrite (trimStart_snoc _ _ Hc), rev_app_distr. reflexivity.
Qed.

Lemma trimStart_idem (s : jsstring) : trimStart (trimStart s) = trimStart s.
Proof.
  destruct (trimStart_head s) as [E | (c & r & E & Hc)]; rewrite E.
  - reflexivity.
  - now apply trimStart_fixed.
Qed.

Lemma trimEnd_idem (s : jsstring) : trimEnd (trimEnd s) = trimEnd s.
Proof.
  unfold trimEnd. now rewrite rev_involutive, trimStart_idem.
Qed.

Lemma trim_idem (s : jsstring) : trim (trim s) = trim s.
Proof.
  unfold trim.
  destruct (trimStart_head s) as [E | (c & r & E & Hc)]; rewrite E.
  - reflexivity.
  - rewrite (trimEnd_cons _ _ Hc), (trimStart_fixed _ _ Hc).
    now rewrite (trimEnd_cons _ _ Hc), trimEnd_idem.
Qed.

Lemma trimStart_incl (s : jsstring) (x : N) :
  In x (trimStart s) -> In x s.
Proof.
  induction s as [|c r IH]; simpl; [auto|].
  destruct (isWhiteSpace c); simpl; auto.
Qed.

Lemma trim_incl (s : jsstring) (x : N) : In x (trim s) -> In x s.
Proof.
  unfold trim, trimEnd. intros H.
  apply in_rev, trimStart_incl in H. apply in_rev in H.
  now apply trimStart_incl.
Qed.

(** A non-empty text that [trim] leaves alone starts with a character that
    is kept, and [trimEnd] leaves it alone too. *)
Lemma trimmed_shape (s : jsstring) :
  trim s = s -> s <> [] ->
  (exists c r, s = c :: r /\ isWhiteSpace c = false) /\ trimEnd s = s.
Proof.
  intros Ht Hne. destruct s as [|c r]; [congruence|].
  destruct (isWhiteSpace c) eqn:Hc.
  - exfalso. unfold trim in Ht. simpl in Ht. rewrite Hc in Ht.
    assert (H := trimEnd_length (trimStart r)).
    assert (H' := trimStart_length r).
    rewrite Ht in H. simpl in H. lia.
  - split; [eauto|].
    unfold trim in Ht. now rewrite (trimStart_fixed _ _ Hc) in Ht.
Qed.

Lemma colon_is_kept : isWhiteSpace colon = false.
Proof. reflexivity. Qed.

Lemma trim_joined (l p : jsstring) :
  trim l = l -> l <> [] -> trim p = p -> p <> [] ->
  trim (l ++ colon :: p) = l ++ colon :: p.
Proof.
  intros Hl Hln Hp Hpn.
  destruct (trimmed_shape _ Hl Hln) as [(c & r & -> & Hc) _].
  destruct (trimmed_shape _ Hp Hpn) as [_ Hpe].
  unfold trim. simpl app. rewrite (trimStart_fixed _ _ Hc).
  change (c :: r ++ colon :: p) with ((c :: r) ++ colon :: p).
  rewrite trimEnd_app; rewrite (trimEnd_cons _ _ colon_is_kept), Hpe;
    [reflexivity | discriminate].
Qed.

End TrimFacts.

(** X1.  Joining a login and a password with a colon and parsing the text gives
    the two back, when both are non-empty, free of outer white space, and
    the login holds no colon. *)
Theorem parsePair_of_joined (login password : jsstring) :
  trim login = login -> login <> [] -> ~ In colon login ->
  trim password = password -> password <> [] ->
  parsePair (JStr (login ++ colon :: password)) = Ok (login, password).
Proof.
  intros Hl Hln Hnc Hp Hpn. apply parsePair_Ok_iff.
  exists login, password.
  rewrite (trim_joined _ _ Hl Hln Hp Hpn), Hl, Hp. auto 10.
Qed.

Lemma parsePair_of_joined_witness :
  parsePair (JStr (str "bob" ++ colon :: str "s3:cret"))
  = Ok (str "bob", str "s3:cret").
Proof.
  apply parsePair_of_joined; try reflexivity; try discriminate.
  simpl. unfold colon. intros [H|[H|[H|[]]]]; discriminate H.
Defined.

(** X2.  Whatever [parsePair] returns is in the form it accepts: login and
    password are non-empty and free of outer white space, the login holds
    no colon, and parsing [login:password] again returns the same pair. *)
Theorem parsePair_results_are_canonical
    (v : jsval) (login password : jsstring) :
  parsePair v = Ok (login, password) ->
  trim login = login /\ trim password = password
  /\ login <> [] /\ password <> [] /\ ~ In colon login
  /\ parsePair (JStr (login ++ colon :: password)) = Ok (login, password).
Proof.
  intros H.
  assert (H' : parsePair (JStr (stringOrEmpty v)) = Ok (login, password))
    by exact H.
  apply parsePair_Ok_iff in H'
    as (a & b & _ & Hnc & _ & -> & -> & Hln & Hpn).
  assert (Hnc' : ~ In colon (trim a))
    by (intros Hin; apply Hnc; now apply trim_incl).
  repeat split; try assumption; try apply trim_idem.
  apply parsePair_Ok_iff. exists (trim a), (trim b).
  rewrite (trim_joined _ _ (trim_idem a) Hln (trim_idem b) Hpn).
  rewrite !trim_idem. auto 10.
Qed.

Lemma parsePair_results_are_canonical_witness :
  parsePair (JStr (str "bob" ++ colon :: str "pw"))
  = Ok (str "bob", str "pw").
Proof.
  exact (proj2 (proj2 (proj2 (proj2 (proj2
    (parsePair_results_are_canonical
       (JStr (str "  bob : pw ")) (str "bob") (str "pw") eq_refl)))))).
Defined.

(* ================================================================== *)
(** ** Integrity of the store under every mutation *)
(* ================================================================== *)

Section IntegrityFacts.

Lemma NoDup_snoc {A} (l : list A) (x : A) :
  NoDup l -> ~ In x l -> NoDup (l ++ [x]).
Proof.
  intros Hl Hx. apply NoDup_rev in Hl.
  rewrite <- (rev_involutive (l ++ [x])). apply NoDup_rev.
  rewrite rev_app_distr. simpl. constructor; [|assumption].
  intros H. apply Hx. now apply in_rev.
Qed.

Lemma NoDup_map_filter {A B} (f : A -> B) (p : A -> bool) (l : list A) :
  NoDup (List.map f l) -> NoDup (List.map f (filter p l)).
Proof.
  induction l as [|x l IH]; simpl; intros H; [constructor|].
  inversion H as [|? ? Hnin Hnd]; subst.
  destruct (p x); simpl; [constructor|]; auto.
  intros Hin. apply Hnin. apply in_map_iff in Hin as (y & <- & Hy).
  apply in_map. now apply filter_In in Hy.
Qed.

Lemma login_keys_In (l : list account_row) (lg : jsstring) (M : Z) :
  In (lg, M) (login_keys l) <->
  exists a, In a l /\ acc_login a = Some lg /\ acc_map_id a = M.
Proof.
  unfold login_keys. rewrite in_flat_map. split.
  - intros (a & Ha & Hk). exists a. split; [assumption|].
    destruct (acc_login a) as [x|]; [|destruct Hk].
    destruct Hk as [[= <- <-]|[]]. auto.
  - intros (a & Ha & Hl & HM). exists a. split; [assumption|].
    rewrite Hl, HM. now left.
Qed.

Lemma login_keys_filter (p : account_row -> bool) (l : list account_row) :
  NoDup (login_keys l) -> NoDup (login_keys (filter p l)).
Proof.
  induction l as [|x l IH]; simpl; intros H; [constructor|].
  assert (Hl : NoDup (login_keys l)).
  { destruct (acc_login x); [now inversion H | assumption]. }
  destruct (p x); [|now apply IH].
  simpl. destruct (acc_login x) as [lg|] eqn:E; simpl in *; [|now apply IH].
  inversion H as [|? ? Hnin _]; subst.
  constructor; [|now apply IH].
  intros Hin. apply Hnin. apply login_keys_In in Hin as (a & Ha & Hlg & HM).
  apply login_keys_In. exists a. apply filter_In in Ha as [Ha _]. auto.
Qed.

Lemma login_clash_spec (login : jsstring) (M : Z) (l : list account_row) :
  existsb (login_clash (Some login) M) l = true <-> In (login, M) (login_keys l).
Proof.
  rewrite existsb_exists, login_keys_In. split.
  - intros (a & Ha & Hc). exists a. split; [assumption|].
    unfold login_clash in Hc. destruct (acc_login a) as [lg|]; [|discriminate].
    apply andb_true_iff in Hc as [Hl HM].
    apply eqb_eq in Hl. apply Z.eqb_eq in HM. subst. auto.
  - intros (a & Ha & Hl & HM). exists a. split; [assumption|].
    unfold login_clash. rewrite Hl, HM, eqb_refl, Z.eqb_refl. reflexivity.
Qed.

Lemma map_exists_spec (db : database) (id : Z) :
  map_exists db id = true <-> exists m, In m (maps db) /\ map_id_of m = id.
Proof.
  unfold map_exists. rewrite existsb_exists.
  split; intros (m & Hm & H); exists m; (split; [assumption|]);
    now apply Z.eqb_eq.
Qed.


Lemma createMap_inv (db db' : database) (name : jsstring) (info : run_info) :
  createMap db name = Ok (db', info) ->
  name_taken db (trim name) = false
  /\ db' = Database
             (maps db ++ [MapRow (lastInsertRowid info) (trim name)])
             (accounts db) (lastInsertRowid info) (seq_accounts db)
  /\ info = RunInfo 1 (next_rowid (seq_maps db)
                         (List.map map_id_of (maps db))).
Proof.
  unfold createMap. destruct (name_taken db (trim name)); [discriminate|].
  intros [= <- <-]. auto.
Qed.

Lemma createMap_consistent (db db' : database) (name : jsstring)
    (info : run_info) :
  consistent db -> createMap db name = Ok (db', info) -> consistent db'.
Proof.
  intros [Hmk Hak Hnu Hlu Href Hms Has] H.
  apply createMap_inv in H as (Hfree & -> & ->). cbn [lastInsertRowid].
  destruct (next_rowid_above (seq_maps db) (List.map map_id_of (maps db)))
    as [Hseq Hids].
  set (id := next_rowid (seq_maps db) (List.map map_id_of (maps db))) in *.
  constructor; cbn [maps accounts seq_maps seq_accounts]; try assumption.
  - rewrite map_app. simpl. apply NoDup_snoc; [assumption|].
    intros Hin. apply Hids in Hin. lia.
  - rewrite map_app. simpl. apply NoDup_snoc; [assumption|].
    intros Hin. apply in_map_iff in Hin as (m & Hm & Hin).
    unfold name_taken in Hfree.
    rewrite existsb_false in Hfree. specialize (Hfree m Hin).
    apply nocase_eqb_of_fold in Hm. congruence.
  - intros a Ha. specialize (Href a Ha). unfold map_exists in *.
    cbn [maps]. rewrite existsb_app, Href. reflexivity.
  - intros m Hm. apply in_app_or in Hm as [Hm | [<-|[]]]; cbn.
    + assert (map_id_of m < id)%Z by (apply Hids; now apply in_map). lia.
    + lia.
Qed.

Lemma deleteMapById_consistent (db : database) (id : Z) :
  consistent db -> consistent (fst (deleteMapById db id)).
Proof.
  intros Hc. unfold deleteMapById.
  destruct (filter _ (maps db)) as [|m0 rest]; [exact Hc|]. cbn [fst].
  destruct Hc as [Hmk Hak Hnu Hlu Href Hms Has].
  constructor; cbn [maps accounts seq_maps seq_accounts].
  - now apply NoDup_map_filter.
  - now apply NoDup_map_filter.
  - now apply (NoDup_map_filter (fun m => List.map fold_ascii (map_name m))).
  - now apply login_keys_filter.
  - intros a Ha. apply filter_In in Ha as [Ha Hne].
    apply negb_true_iff, Z.eqb_neq in Hne.
    destruct (proj1 (map_exists_spec db _) (Href a Ha)) as (m & Hm & Hid).
    apply map_exists_spec. exists m. split; [|assumption].
    apply filter_In. split; [assumption|].
    apply negb_true_iff, Z.eqb_neq. congruence.
  - intros m Hm. apply filter_In in Hm as [Hm _]. auto.
  - intros a Ha. apply filter_In in Ha as [Ha _]. auto.
Qed.

Lemma addAccountToMap_consistent (db db' : database) (mapId : Z)
    (login password : option jsstring) (label : jsval) (info : run_info) :
  consistent db ->
  addAccountToMap db mapId login password label = Ok (db', info) ->
  consistent db'.
Proof.
  intros [Hmk Hak Hnu Hlu Href Hms Has] H.
  apply addAccountToMap_inv in H as (-> & _ & Hfree & Hex).
  destruct (next_rowid_above (seq_accounts db)
              (List.map acc_id (accounts db))) as [Hseq Hids].
  unfold with_account, new_account_row.
  set (id := next_rowid (seq_accounts db) (List.map acc_id (accounts db)))
    in *.
  constructor; cbn [maps accounts seq_maps seq_accounts acc_id];
    try assumption.
  - rewrite map_app. simpl. apply NoDup_snoc; [assumption|].
    intros Hin. apply Hids in Hin. lia.
  - unfold login_keys. rewrite flat_map_app. cbn.
    destruct login as [lg|]; [|now rewrite app_nil_r].
    apply NoDup_snoc; [assumption|].
    intros Hin. apply login_clash_spec in Hin. congruence.
  - intros a Ha. unfold map_exists. cbn [maps].
    apply in_app_or in Ha as [Ha | [<-|[]]]; [now apply Href | exact Hex].
  - intros a Ha. apply in_app_or in Ha as [Ha | [<-|[]]]; cbn.
    + assert (acc_id a < id)%Z by (apply Hids; now apply in_map). lia.
    + lia.
Qed.

Lemma accounts_filter_consistent (db : database) (p : account_row -> bool) :
  consistent db ->
  consistent (Database (maps db) (filter p (accounts db))
                       (seq_maps db) (seq_accounts db)).
Proof.
  intros [Hmk Hak Hnu Hlu Href Hms Has].
  constructor; cbn [maps accounts seq_maps seq_accounts]; try assumption.
  - now apply NoDup_map_filter.
  - now apply login_keys_filter.
  - intros a Ha. apply filter_In in Ha as [Ha _]. now apply Href.
  - intros a Ha. apply filter_In in Ha as [Ha _]. auto.
Qed.

(** A turn of the bulk loop leaves the store alone or does one accepted
    insert. *)
Lemma bulkStep_store (mapId : Z) (db : database) (res : bulk_results)
    (ln : jsstring) :
  fst (bulkStep mapId (db, res) ln) = db
  \/ exists login password info,
       parsePair (JStr ln) = Ok (login, password)
       /\ addAccountToMap db mapId (Some login) (Some password) JNull
          = Ok (fst (bulkStep mapId (db, res) ln), info).
Proof.
  unfold bulkStep.
  destruct (parsePair (JStr ln)) as [[login password]|e] eqn:Hp; cbn [bind].
  - cbn [fst snd].
    destruct (addAccountToMap db mapId (Some login) (Some password) JNull)
      as [[db' info]|e] eqn:Ha.
    + right. exists login, password, info. auto.
    + left. destruct (_ || _); reflexivity.
  - left. destruct (_ || _); reflexivity.
Qed.

Lemma bulk_fold_invariant (P : database -> Prop) (mapId : Z) :
  (forall db res ln, P db -> P (fst (bulkStep mapId (db, res) ln))) ->
  forall lines db res,
    P db -> P (fst (fold_left (bulkStep mapId) lines (db, res))).
Proof.
  intros Hstep lines. induction lines as [|ln lines IH]; intros db res HP.
  - exact HP.
  - cbn [fold_left].
    destruct (bulkStep mapId (db, res) ln) as [db1 res1] eqn:Hs.
    apply IH. specialize (Hstep db res ln HP). now rewrite Hs in Hstep.
Qed.

End IntegrityFacts.

(** X3.  The empty store is consistent, and the two mutations of the map table
    keep a consistent store consistent: an accepted [createMap], and
    [deleteMapById] with its cascade, whatever the id. *)
Theorem map_mutations_keep_store_consistent :
  consistent empty_database
  /\ (forall db name db' info,
        consistent db -> createMap db name = Ok (db', info) ->
        consistent db')
  /\ (forall db id,
        consistent db -> consistent (fst (deleteMapById db id))).
Proof.
  split; [|split].
  - constructor; simpl; try constructor; intros ? [].
  - intros db name db' info Hc H. exact (createMap_consistent _ _ _ _ Hc H).
  - intros db id Hc. now apply deleteMapById_consistent.
Qed.

(** X4.  The mutations of the account table keep a consistent store
    consistent: an accepted insert (given directly or as a [login:password]
    pair) and the two deletes. *)
Theorem account_mutations_keep_store_consistent (db : database) :
  consistent db ->
  (forall mapId login password label db' info,
      addAccountToMap db mapId login password label = Ok (db', info) ->
      consistent db')
  /\ (forall mapId pair label db' info,
        addAccountPairToMap db mapId pair label = Ok (db', info) ->
        consistent db')
  /\ (forall mapId login,
        consistent (fst (removeAccountByLogin db mapId login)))
  /\ (forall id, consistent (fst (removeAccountById db id))).
Proof.
  intros Hc. split; [|split; [|split]].
  - intros mapId login password label db' info H.
    exact (addAccountToMap_consistent _ _ _ _ _ _ _ Hc H).
  - intros mapId pair label db' info H. unfold addAccountPairToMap in H.
    destruct (parsePair pair) as [lp|e]; cbn [bind] in H; [|discriminate].
    exact (addAccountToMap_consistent _ _ _ _ _ _ _ Hc H).
  - intros mapId login. apply (accounts_filter_consistent _ _ Hc).
  - intros id. apply (accounts_filter_consistent _ _ Hc).
Qed.

(** X5.  A bulk import keeps a consistent store consistent, whatever the text
    and the map id. *)
Theorem bulkAddPairs_keeps_store_consistent
    (db : database) (mapId : Z) (pairsText : jsval) :
  consistent db -> consistent (fst (bulkAddPairs db mapId pairsText)).
Proof.
  intros Hc. unfold bulkAddPairs.
  apply bulk_fold_invariant; [|exact Hc].
  intros db0 res ln H0.
  destruct (bulkStep_store mapId db0 res ln)
    as [-> | (login & password & info & _ & Ha)]; [exact H0|].
  exact (addAccountToMap_consistent _ _ _ _ _ _ _ H0 Ha).
Qed.

Lemma db_alice_consistent : consistent db_alice.
Proof.
  constructor; simpl.
  - constructor; [intros [H|[]]; discriminate H|].
    constructor; [intros []|constructor].
  - constructor; [intros []|constructor].
  - constructor; [intros [H|[]]; discriminate H|].
    constructor; [intros []|constructor].
  - constructor; [intros []|constructor].
  - intros a [<-|[]]. reflexivity.
  - intros m [<-|[<-|[]]]; simpl; lia.
  - intros a [<-|[]]. simpl. lia.
Defined.

Lemma map_mutations_keep_store_consistent_witness :
  consistent (fst (deleteMapById db_alice 1)).
Proof.
  exact (proj2 (proj2 map_mutations_keep_store_consistent)
           db_alice 1%Z db_alice_consistent).
Defined.

Lemma account_mutations_keep_store_consistent_witness :
  consistent (fst (removeAccountByLogin db_alice 1 (str " alice "))).
Proof.
  exact (proj1 (proj2 (proj2
           (account_mutations_keep_store_consistent
              db_alice db_alice_consistent)))
           1%Z (str " alice ")).
Defined.

Lemma bulkAddPairs_keeps_store_consistent_witness :
  consistent (fst (bulkAddPairs db_alice 1 (JStr (str "bob:pw")))).
Proof.
  exact (bulkAddPairs_keeps_store_consistent db_alice 1
           (JStr (str "bob:pw")) db_alice_consistent).
Defined.

(* ================================================================== *)
(** ** Lookups after inserts and deletes *)
(* ================================================================== *)

Section LookupFacts.

Lemma find_app {A} (f : A -> bool) (l1 l2 : list A) :
  find f (l1 ++ l2)
  = match find f l1 with Some y => Some y | None => find f l2 end.
Proof.
  induction l1 as [|x l1 IH]; simpl; [reflexivity|].
  now destruct (f x).
Qed.

Lemma find_filter {A} (f p : A -> bool) (l : list A) :
  (forall x, f x = true -> p x = true) ->
  find f (filter p l) = find f l.
Proof.
  intros H. induction l as [|x l IH]; simpl; [reflexivity|].
  destruct (p x) eqn:Hp; simpl.
  - now rewrite IH.
  - destruct (f x) eqn:Hf; [|assumption].
    apply H in Hf. congruence.
Qed.

Lemma filter_all {A} (p : A -> bool) (l : list A) :
  (forall x, In x l -> p x = true) -> filter p l = l.
Proof.
  induction l as [|x l IH]; simpl; intros H; [reflexivity|].
  rewrite (H x (or_introl eq_refl)), IH; [reflexivity|].
  intros y Hy. apply H. now right.
Qed.

Lemma filter_none {A} (p : A -> bool) (l : list A) :
  (forall x, In x l -> p x = false) -> filter p l = [].
Proof.
  induction l as [|x l IH]; simpl; intros H; [reflexivity|].
  rewrite (H x (or_introl eq_refl)). apply IH.
  intros y Hy. apply H. now right.
Qed.

Lemma existsb_find {A} (f : A -> bool) (l : list A) :
  existsb f l = true <-> exists x, find f l = Some x.
Proof.
  induction l as [|y l IH]; simpl.
  - split; [discriminate | intros [x H]; discriminate H].
  - destruct (f y); simpl; [|exact IH].
    split; [eauto | reflexivity].
Qed.

(** Under a key, at most one row carries a given key value. *)
Lemma key_filter_length {A} (key : A -> Z) (k : Z) (l : list A) :
  NoDup (List.map key l) ->
  (List.length (filter (fun x => (key x =? k)%Z) l) <= 1)%nat.
Proof.
  induction l as [|x l IH]; simpl; intros H; [lia|].
  inversion H as [|? ? Hnin Hnd]; subst. specialize (IH Hnd).
  destruct (Z.eqb_spec (key x) k) as [E|_]; [|lia].
  rewrite filter_none; [simpl; lia|].
  intros y Hy. apply Z.eqb_neq. intros E'. apply Hnin.
  rewrite E, <- E'. now apply in_map.
Qed.

Lemma key_filter_one {A} (key : A -> Z) (k : Z) (l : list A) :
  NoDup (List.map key l) -> existsb (fun x => (key x =? k)%Z) l = true ->
  List.length (filter (fun x => (key x =? k)%Z) l) = 1%nat.
Proof.
  intros Hnd Hex. assert (H := key_filter_length key k l Hnd).
  apply filter_nonempty in Hex.
  destruct (filter _ l) as [|x [|y r]]; simpl in *; [congruence|lia|lia].
Qed.

End LookupFacts.

(** X6.  [createMap] refuses a name exactly when [getMapByName] finds it; and
    once [createMap] has stored a name, [getMapByName] finds that map
    under every text that, trimmed, is equal to it under the NOCASE
    collation (another letter case, outer white space, or another text
    of the same byte length after a shared U+0000), while the lookup of
    every other name and of every other id is as before. *)
Theorem createMap_then_lookup (db : database) (name : jsstring) :
  (createMap db name = Throw (SqliteError (UniqueFailed "maps.name"))
   <-> exists m, getMapByName db name = Some m)
  /\ forall db' info,
       createMap db name = Ok (db', info) ->
       getMapById db' (lastInsertRowid info)
       = Some (MapRow (lastInsertRowid info) (trim name))
       /\ (forall name2,
             nocase_eqb (trim name) (trim name2) = true ->
             getMapByName db' name2
             = Some (MapRow (lastInsertRowid info) (trim name)))
       /\ (forall name2,
             nocase_eqb (trim name) (trim name2) = false ->
             getMapByName db' name2 = getMapByName db name2)
       /\ (forall id,
             id <> lastInsertRowid info ->
             getMapById db' id = getMapById db id).
Proof.
  split.
  - unfold createMap, getMapByName, name_taken.
    rewrite <- existsb_find.
    destruct (existsb _ (maps db)); split; intros H;
      try reflexivity; try discriminate H.
  - intros db' info H. apply createMap_inv in H as (Hfree & -> & ->).
    cbn [lastInsertRowid].
    destruct (next_rowid_above (seq_maps db) (List.map map_id_of (maps db)))
      as [_ Hids].
    set (id := next_rowid (seq_maps db) (List.map map_id_of (maps db))) in *.
    unfold name_taken in Hfree. rewrite existsb_false in Hfree.
    unfold getMapById, getMapByName. cbn [maps].
    split; [|split; [|split]].
    + apply find_app_last; [|apply Z.eqb_refl].
      intros m Hm. apply Z.eqb_neq.
      assert (map_id_of m < id)%Z by (apply Hids; now apply in_map).
      cbn. lia.
    + intros name2 Heq. apply find_app_last; [|exact Heq].
      intros m Hm. specialize (Hfree m Hm).
      destruct (nocase_eqb (map_name m) (trim name2)) eqn:E;
        [|reflexivity].
      assert (E' : nocase_eqb (map_name m) (trim name) = true)
        by (apply (nocase_eqb_trans _ (trim name2));
            [exact E | now apply nocase_eqb_sym]).
      congruence.
    + intros name2 Hne. rewrite find_app. simpl. rewrite Hne.
      now destruct (find _ (maps db)).
    + intros id' Hne. rewrite find_app. simpl.
      destruct (Z.eqb_spec id id') as [E|_]; [congruence|].
      now destruct (find _ (maps db)).
Qed.

Lemma createMap_then_lookup_witness :
  getMapByName
    (Database (maps db_one_map ++ [MapRow 2 (str "Prod")]) [] 2 0)
    (str "  PROD ")
  = Some (MapRow 2 (str "Prod")).
Proof.
  exact (proj1 (proj2
           (proj2 (createMap_then_lookup db_one_map (str " Prod"))
              _ (RunInfo 1 2) eq_refl))
           (str "  PROD ") eq_refl).
Defined.

(** X7.  An accepted insert can be read back: [getAccountById] at the returned
    rowid gives the login, the password, the map id and, as label, the
    label given or else the login; every other id reads as before. *)
Theorem addAccountToMap_then_getAccountById
    (db db' : database) (mapId : Z) (login password : option jsstring)
    (label : jsval) (info : run_info) :
  addAccountToMap db mapId login password label = Ok (db', info) ->
  getAccountById db' (lastInsertRowid info)
  = Some (AccountDetail (lastInsertRowid info)
            (if truthy label then Some (stringOrEmpty label) else login)
            login password mapId)
  /\ getAccountById db (lastInsertRowid info) = None
  /\ forall id, id <> lastInsertRowid info ->
       getAccountById db' id = getAccountById db id.
Proof.
  intros H. apply addAccountToMap_inv in H as (-> & -> & _ & _).
  destruct (next_rowid_above (seq_accounts db)
              (List.map acc_id (accounts db))) as [_ Hids].
  unfold new_account_row, with_account, getAccountById.
  cbn [lastInsertRowid acc_id accounts].
  set (id := next_rowid (seq_accounts db) (List.map acc_id (accounts db)))
    in *.
  assert (Hnone : find (fun a => (acc_id a =? id)%Z) (accounts db) = None).
  { apply find_none_iff. intros a Ha. apply Z.eqb_neq.
    assert (acc_id a < id)%Z by (apply Hids; now apply in_map). lia. }
  split; [|split].
  - rewrite find_app, Hnone. cbn. rewrite Z.eqb_refl. cbn.
    f_equal. f_equal.
    destruct label as [| | | | |[|c s]]; try reflexivity;
      destruct login; reflexivity.
  - now rewrite Hnone.
  - intros id' Hne. rewrite find_app. cbn.
    destruct (Z.eqb_spec id id') as [E|_]; [congruence|].
    destruct (find (fun a => (acc_id a =? id')%Z) (accounts db));
      reflexivity.
Qed.

Lemma addAccountToMap_then_getAccountById_witness :
  getAccountById
    (with_account db_alice
       (new_account_row db_alice 2 (Some (str "bob")) (Some (str "pw"))
          (JStr (str "Work"))))
    2
  = Some (AccountDetail 2 (Some (str "Work")) (Some (str "bob"))
            (Some (str "pw")) 2).
Proof.
  exact (proj1 (addAccountToMap_then_getAccountById db_alice _ 2
                  (Some (str "bob")) (Some (str "pw")) (JStr (str "Work"))
                  _ eq_refl)).
Defined.

(** X8.  [removeAccountById] removes the account with that id and nothing
    else: the id reads as absent afterwards, every other id reads as
    before, the maps are untouched; it reports 0 exactly when the id was
    absent, and at most 1 where ids are a key. *)
Theorem removeAccountById_removes_one (db : database) (id : Z) :
  getAccountById (fst (removeAccountById db id)) id = None
  /\ (forall id', id' <> id ->
        getAccountById (fst (removeAccountById db id)) id'
        = getAccountById db id')
  /\ maps (fst (removeAccountById db id)) = maps db
  /\ (snd (removeAccountById db id) = 0%Z <-> getAccountById db id = None)
  /\ (NoDup (List.map acc_id (accounts db)) ->
      (snd (removeAccountById db id) <= 1)%Z).
Proof.
  unfold removeAccountById, getAccountById. cbn [fst snd accounts maps].
  split; [|split; [|split; [|split]]].
  - rewrite (proj2 (find_none_iff _ _)); [reflexivity|].
    intros a Ha. apply filter_In in Ha as [_ Ha].
    now apply negb_true_iff in Ha.
  - intros id' Hne. rewrite find_filter; [reflexivity|].
    intros a Ha. apply Z.eqb_eq in Ha.
    apply negb_true_iff, Z.eqb_neq. congruence.
  - reflexivity.
  - split.
    + intros H.
      destruct (find _ (accounts db)) as [a|] eqn:Hf; [|reflexivity].
      apply find_some in Hf.
      assert (Hin : In a (filter (fun a => (acc_id a =? id)%Z) (accounts db)))
        by (apply filter_In; exact Hf).
      destruct (filter _ (accounts db)); [destruct Hin | simpl in H; lia].
    + intros H.
      destruct (find _ (accounts db)) as [a|] eqn:Hf; [discriminate|].
      rewrite filter_none; [reflexivity|].
      now apply find_none_iff.
  - intros Hk. assert (H := key_filter_length acc_id id _ Hk). lia.
Qed.

Lemma removeAccountById_removes_one_witness :
  (snd (removeAccountById db_alice 1) <= 1)%Z.
Proof.
  apply (proj2 (proj2 (proj2 (proj2
           (removeAccountById_removes_one db_alice 1))))).
  apply db_alice_consistent.
Defined.

Section RemoveByLogin.

Variable db : database.
Variable mapId : Z.
Variable login : jsstring.

Lemma removeAccountByLogin_unfold :
  removeAccountByLogin db mapId login
  = (Database (maps db)
              (filter (fun a => negb (login_hit mapId login a)) (accounts db))
              (seq_maps db) (seq_accounts db),
     Z.of_nat (List.length (filter (login_hit mapId login) (accounts db)))).
Proof. reflexivity. Qed.

Lemma login_hit_spec (a : account_row) :
  login_hit mapId login a = true <->
  acc_login a = Some (trim login) /\ acc_map_id a = mapId.
Proof.
  unfold login_hit. destruct (acc_login a) as [l|].
  - rewrite andb_true_iff, Z.eqb_eq, eqb_eq. split.
    + intros [HM ->]. auto.
    + intros [[= ->] HM]. auto.
  - split; [discriminate | intros [H _]; discriminate H].
Qed.

Lemma login_hit_false (a : account_row) :
  login_hit mapId login a = false <->
  ~ (acc_login a = Some (trim login) /\ acc_map_id a = mapId).
Proof.
  rewrite <- login_hit_spec.
  destruct (login_hit mapId login a); split; congruence.
Qed.

Lemma login_hit_clash (a : account_row) :
  login_hit mapId login a = login_clash (Some (trim login)) mapId a.
Proof.
  unfold login_hit, login_clash. destruct (acc_login a); [|reflexivity].
  apply andb_comm.
Qed.

Lemma login_hit_at_most_once :
  NoDup (login_keys (accounts db)) ->
  (List.length (filter (login_hit mapId login) (accounts db)) <= 1)%nat.
Proof.
  induction (accounts db) as [|x l IH]; simpl; intros H; [lia|].
  assert (Hl : NoDup (login_keys l)).
  { destruct (acc_login x); [now inversion H | assumption]. }
  destruct (login_hit mapId login x) eqn:Hx; [|now apply IH].
  rewrite filter_none; [simpl; lia|].
  intros y Hy. apply login_hit_false. intros [Hyl HyM].
  apply login_hit_spec in Hx as [Hxl HxM].
  rewrite Hxl in H. simpl in H. apply NoDup_cons_iff in H as [Hnin _].
  apply Hnin. apply login_keys_In. exists y. rewrite HxM. auto.
Qed.

End RemoveByLogin.

(** X9.  [removeAccountByLogin] deletes from the map the accounts whose login
    is the trimmed text, and nothing else: no such account is left, so
    the login can be inserted into the map again; accounts with another
    login or in another map stay; it reports 0 exactly when there was no
    such account, and at most 1 in a consistent store. *)
Theorem removeAccountByLogin_frees_the_login
    (db : database) (mapId : Z) (login : jsstring) :
  (forall a, In a (accounts (fst (removeAccountByLogin db mapId login))) <->
             In a (accounts db)
             /\ ~ (acc_login a = Some (trim login) /\ acc_map_id a = mapId))
  /\ maps (fst (removeAccountByLogin db mapId login)) = maps db
  /\ (map_exists db mapId = true ->
      forall password label,
        exists db' info,
          addAccountToMap (fst (removeAccountByLogin db mapId login)) mapId
            (Some (trim login)) password label = Ok (db', info))
  /\ (snd (removeAccountByLogin db mapId login) = 0%Z <->
      forall a, In a (accounts db) ->
                ~ (acc_login a = Some (trim login) /\ acc_map_id a = mapId))
  /\ (consistent db -> (snd (removeAccountByLogin db mapId login) <= 1)%Z).
Proof.
  rewrite removeAccountByLogin_unfold. cbn [fst snd accounts maps].
  assert (Hkept : forall a,
            In a (filter (fun a => negb (login_hit mapId login a))
                         (accounts db)) <->
            In a (accounts db)
            /\ ~ (acc_login a = Some (trim login) /\ acc_map_id a = mapId)).
  { intros a. rewrite filter_In, negb_true_iff, login_hit_false. tauto. }
  split; [exact Hkept|]. split; [reflexivity|].
  split; [|split].
  - intros Hex password label.
    rewrite addAccountToMap_accepts; [eauto | | exact Hex].
    cbn [accounts]. apply existsb_false. intros a Ha.
    apply Hkept in Ha as [_ Hn]. rewrite <- login_hit_clash.
    now apply login_hit_false.
  - split.
    + intros H a Ha Hhit. apply login_hit_spec in Hhit.
      assert (Hin : In a (filter (login_hit mapId login) (accounts db)))
        by (apply filter_In; auto).
      destruct (filter (login_hit mapId login) (accounts db));
        [destruct Hin | simpl in H; lia].
    + intros H. rewrite filter_none; [reflexivity|].
      intros a Ha. apply login_hit_false. now apply H.
  - intros Hc.
    assert (H := login_hit_at_most_once db mapId login (logins_unique _ Hc)).
    lia.
Qed.

Lemma removeAccountByLogin_frees_the_login_witness :
  (snd (removeAccountByLogin db_alice 1 (str " alice ")) <= 1)%Z
  /\ exists db' info,
       addAccountToMap (fst (removeAccountByLogin db_alice 1 (str " alice ")))
         1 (Some (trim (str " alice "))) (Some (str "new")) JNull
       = Ok (db', info).
Proof.
  destruct (removeAccountByLogin_frees_the_login db_alice 1 (str " alice "))
    as (_ & _ & Hadd & _ & Hone).
  split.
  - apply Hone, db_alice_consistent.
  - apply Hadd. reflexivity.
Defined.

(** X10.  An account added as a [login:password] pair is removed again by its
    login: the account table is as it was before the insert, and one row
    is reported. *)
Theorem add_pair_then_remove_by_login
    (db db' : database) (mapId : Z) (pair label : jsval)
    (info : run_info) (login password : jsstring) :
  addAccountPairToMap db mapId pair label = Ok (db', info) ->
  parsePair pair = Ok (login, password) ->
  removeAccountByLogin db' mapId login
  = (Database (maps db) (accounts db) (seq_maps db) (lastInsertRowid info),
     1%Z).
Proof.
  intros Hadd Hp. unfold addAccountPairToMap in Hadd.
  rewrite Hp in Hadd. cbn [bind fst snd] in Hadd.
  apply addAccountToMap_inv in Hadd as (-> & -> & Hfree & _).
  assert (Htrim : trim login = login).
  { assert (H' : parsePair (JStr (stringOrEmpty pair)) = Ok (login, password))
      by exact Hp.
    apply parsePair_Ok_iff in H' as (a & b & _ & _ & _ & -> & _).
    apply trim_idem. }
  rewrite removeAccountByLogin_unfold.
  unfold with_account, new_account_row.
  cbn [accounts maps seq_maps seq_accounts acc_id lastInsertRowid].
  rewrite existsb_false in Hfree.
  assert (Hold : forall a, In a (accounts db) ->
            login_hit mapId login a = false).
  { intros a Ha. specialize (Hfree a Ha).
    rewrite login_hit_clash, Htrim. exact Hfree. }
  rewrite !filter_app.
  rewrite filter_all
    by (intros a Ha; apply negb_true_iff; now apply Hold).
  rewrite (filter_none _ _ Hold).
  unfold login_hit. cbn. rewrite Z.eqb_refl, Htrim, eqb_refl. cbn.
  now rewrite app_nil_r.
Qed.

Lemma add_pair_then_remove_by_login_witness :
  removeAccountByLogin
    (with_account db_alice
       (new_account_row db_alice 1 (Some (str "bob")) (Some (str "pw"))
          JNull))
    1 (str "bob")
  = (Database (maps db_alice) (accounts db_alice) (seq_maps db_alice) 2,
     1%Z).
Proof.
  exact (add_pair_then_remove_by_login db_alice _ 1
           (JStr (str " bob : pw ")) JNull _ (str "bob") (str "pw")
           eq_refl eq_refl).
Defined.

(** X11.  Rowids are not given out twice: in a consistent store, the account
    inserted after an account was deleted gets a rowid above the deleted
    one, and the map created after a map was deleted gets a rowid above
    that map's. *)
Theorem rowids_are_not_reused (db : database) :
  consistent db ->
  (forall a mapId login password label db' info,
      In a (accounts db) ->
      addAccountToMap (fst (removeAccountById db (acc_id a)))
        mapId login password label = Ok (db', info) ->
      (acc_id a < lastInsertRowid info)%Z)
  /\ (forall m name db' info,
        In m (maps db) ->
        createMap (fst (deleteMapById db (map_id_of m))) name
        = Ok (db', info) ->
        (map_id_of m < lastInsertRowid info)%Z).
Proof.
  intros Hc. split.
  - intros a mapId login password label db' info Ha H.
    apply addAccountToMap_inv in H as (_ & -> & _ & _).
    unfold new_account_row. cbn [lastInsertRowid acc_id].
    unfold removeAccountById. cbn [fst seq_accounts accounts].
    destruct (next_rowid_above (seq_accounts db)
                (List.map acc_id
                   (filter (fun a0 => negb (acc_id a0 =? acc_id a)%Z)
                      (accounts db)))) as [Hseq _].
    assert (H := accounts_seq_bound _ Hc a Ha). lia.
  - intros m name db' info Hm H.
    apply createMap_inv in H as (_ & _ & ->). cbn [lastInsertRowid].
    assert (Hseq : seq_maps (fst (deleteMapById db (map_id_of m)))
                   = seq_maps db).
    { unfold deleteMapById. now destruct (filter _ (maps db)). }
    rewrite Hseq.
    destruct (next_rowid_above (seq_maps db)
                (List.map map_id_of
                   (maps (fst (deleteMapById db (map_id_of m))))))
      as [Hlt _].
    assert (H := maps_seq_bound _ Hc m Hm). lia.
Qed.

Lemma rowids_are_not_reused_witness :
  (acc_id alice_row < lastInsertRowid (RunInfo 1 2))%Z.
Proof.
  exact (proj1 (rowids_are_not_reused db_alice db_alice_consistent)
           alice_row 1%Z (Some (str "alice")) (Some (str "pw")) JNull
           _ (RunInfo 1 2) (or_introl eq_refl) eq_refl).
Defined.

(** X12.  [deleteMapById] on an id that is not stored changes nothing and
    reports 0; on a stored id, in a consistent store, it reports 1, and
    the other maps stay with their names. *)
Theorem deleteMapById_reports_the_map (db : database) (id : Z) :
  (map_exists db id = false -> deleteMapById db id = (db, 0%Z))
  /\ (consistent db -> map_exists db id = true ->
      snd (deleteMapById db id) = 1%Z)
  /\ (forall id', id' <> id ->
        getMapById (fst (deleteMapById db id)) id' = getMapById db id').
Proof.
  split; [|split].
  - intros H. unfold deleteMapById. unfold map_exists in H.
    rewrite filter_none; [reflexivity|]. now apply existsb_false.
  - intros Hc Hex. unfold deleteMapById.
    assert (H := key_filter_one map_id_of id (maps db) (maps_key _ Hc) Hex).
    destruct (filter (fun m => (map_id_of m =? id)%Z) (maps db))
      as [|m0 rest]; [discriminate H|].
    cbn [snd]. rewrite H. reflexivity.
  - intros id' Hne. unfold deleteMapById, getMapById.
    destruct (filter (fun m => (map_id_of m =? id)%Z) (maps db));
      [reflexivity|].
    cbn [fst maps]. apply find_filter.
    intros x Hx. apply Z.eqb_eq in Hx.
    apply negb_true_iff, Z.eqb_neq. congruence.
Qed.

Lemma deleteMapById_reports_the_map_witness :
  deleteMapById db_alice 7 = (db_alice, 0%Z)
  /\ snd (deleteMapById db_alice 2) = 1%Z.
Proof.
  split.
  - exact (proj1 (deleteMapById_reports_the_map db_alice 7) eq_refl).
  - exact (proj1 (proj2 (deleteMapById_reports_the_map db_alice 2))
             db_alice_consistent eq_refl).
Defined.

(* ================================================================== *)
(** ** Maps with their account counts *)
(* ================================================================== *)

Section SortFacts.

Context {A : Type}.
Variable leb : A -> A -> bool.
Hypothesis leb_total : forall x y, leb x y = true \/ leb y x = true.
Hypothesis leb_trans :
  forall x y z, leb x y = true -> leb y z = true -> leb x z = true.

Lemma insert_by_perm (x : A) (l : list A) :
  Permutation (insert_by leb x l) (x :: l).
Proof.
  induction l as [|y l IH]; simpl.
  - apply Permutation_refl.
  - destruct (leb x y).
    + apply Permutation_refl.
    + eapply perm_trans; [apply perm_skip, IH | apply perm_swap].
Qed.

Lemma sort_by_perm (l : list A) : Permutation (sort_by leb l) l.
Proof.
  induction l as [|x l IH]; simpl.
  - constructor.
  - eapply perm_trans; [apply insert_by_perm | now apply perm_skip].
Qed.

Lemma insert_by_sorted (x : A) (l : list A) :
  StronglySorted (fun a b => leb a b = true) l ->
  StronglySorted (fun a b => leb a b = true) (insert_by leb x l).
Proof.
  induction 1 as [|y l Hl IH Hy]; simpl.
  - repeat constructor.
  - destruct (leb x y) eqn:Hxy.
    + constructor; [now constructor|].
      constructor; [assumption|].
      eapply Forall_impl; [|exact Hy].
      intros z Hz. now apply (leb_trans x y z).
    + constructor; [assumption|].
      apply (Permutation_Forall (Permutation_sym (insert_by_perm x l))).
      constructor; [|assumption].
      destruct (leb_total x y); congruence.
Qed.

Lemma sort_by_sorted (l : list A) :
  StronglySorted (fun a b => leb a b = true) (sort_by leb l).
Proof.
  induction l as [|x l IH]; simpl.
  - constructor.
  - now apply insert_by_sorted.
Qed.

End SortFacts.

Section CountFacts.

Lemma count_rows_perm (db : database) :
  Permutation (listMapsWithCounts db)
    (List.map (fun m => MapCount (map_id_of m) (map_name m)
                          (Z.of_nat (count_of db (map_id_of m))))
              (maps db)).
Proof. unfold listMapsWithCounts. apply sort_by_perm. Qed.

Lemma sumZ_perm (l l' : list Z) : Permutation l l' -> sumZ l = sumZ l'.
Proof. induction 1; simpl; lia. Qed.

(** Where map ids are a key, an account of a stored map is counted by
    exactly one map. *)
Lemma one_map_counts (ms : list map_row) (k : Z) :
  NoDup (List.map map_id_of ms) ->
  existsb (fun m => (map_id_of m =? k)%Z) ms = true ->
  sumZ (List.map (fun m => if (k =? map_id_of m)%Z then 1%Z else 0%Z) ms) = 1%Z.
Proof.
  induction ms as [|m ms IH]; simpl; intros Hnd Hex; [discriminate|].
  inversion Hnd as [|? ? Hnin Hnd']; subst.
  destruct (Z.eqb_spec (map_id_of m) k) as [E|Hne].
  - rewrite E, Z.eqb_refl.
    assert (Hz : sumZ (List.map
                   (fun m0 => if (k =? map_id_of m0)%Z then 1%Z else 0%Z) ms)
                 = 0%Z).
    { clear IH Hex Hnd' Hnd. induction ms as [|m' ms IH]; simpl;
        [reflexivity|].
      destruct (Z.eqb_spec k (map_id_of m')) as [E'|_].
      - exfalso. apply Hnin. left. congruence.
      - apply IH. intros H. apply Hnin. now right. }
    lia.
  - simpl in Hex. destruct (Z.eqb_spec k (map_id_of m)); [congruence|].
    now apply IH.
Qed.

Lemma counts_sum (ms : list map_row) (acs : list account_row) :
  NoDup (List.map map_id_of ms) ->
  (forall a, In a acs ->
     existsb (fun m => (map_id_of m =? acc_map_id a)%Z) ms = true) ->
  sumZ (List.map
          (fun m => Z.of_nat
             (List.length
                (filter (fun a => (acc_map_id a =? map_id_of m)%Z) acs)))
          ms)
  = Z.of_nat (List.length acs).
Proof.
  intros Hnd. induction acs as [|a acs IH]; intros Href.
  - simpl. clear. induction ms; simpl; [reflexivity | assumption].
  - assert (Hsplit :
      sumZ (List.map
              (fun m => Z.of_nat
                 (List.length
                    (filter (fun a0 => (acc_map_id a0 =? map_id_of m)%Z)
                       (a :: acs)))) ms)
      = (sumZ (List.map
                 (fun m => if (acc_map_id a =? map_id_of m)%Z then 1%Z else 0%Z)
                 ms)
         + sumZ (List.map
                   (fun m => Z.of_nat
                      (List.length
                         (filter
                            (fun a0 => (acc_map_id a0 =? map_id_of m)%Z)
                            acs))) ms))%Z).
    { clear. induction ms as [|m ms IHm]; simpl; [reflexivity|].
      simpl in IHm. rewrite IHm.
      destruct (acc_map_id a =? map_id_of m)%Z; simpl List.length; lia. }
    rewrite Hsplit, IH by (intros b Hb; apply Href; now right).
    rewrite (one_map_counts ms (acc_map_id a) Hnd
               (Href a (or_introl eq_refl))).
    simpl List.length. lia.
Qed.

Lemma nocase_text_leb_total (x y : map_count) :
  nocase_text_leb (mc_name x) (mc_name y) = true
  \/ nocase_text_leb (mc_name y) (mc_name x) = true.
Proof. apply collate_leb_total. Qed.

Lemma nocase_text_leb_trans (x y z : map_count) :
  nocase_text_leb (mc_name x) (mc_name y) = true ->
  nocase_text_leb (mc_name y) (mc_name z) = true ->
  nocase_text_leb (mc_name x) (mc_name z) = true.
Proof. apply collate_leb_trans. Qed.

End CountFacts.

(** X13.  [listMapsWithCounts] lists every stored map once, with its id, its
    name and the number of accounts that reference it (0 for a map
    without accounts), in ascending order of the name under the NOCASE
    collation ([collate_nocase]). *)
Theorem listMapsWithCounts_lists_every_map (db : database) :
  List.length (listMapsWithCounts db) = List.length (maps db)
  /\ (forall m, In m (maps db) ->
        In (MapCount (map_id_of m) (map_name m)
              (Z.of_nat
                 (List.length
                    (filter (fun a => (acc_map_id a =? map_id_of m)%Z)
                            (accounts db)))))
           (listMapsWithCounts db))
  /\ (forall row, In row (listMapsWithCounts db) ->
        exists m, In m (maps db)
                  /\ mc_id row = map_id_of m /\ mc_name row = map_name m
                  /\ account_count row
                     = Z.of_nat
                         (List.length
                            (filter
                               (fun a => (acc_map_id a =? mc_id row)%Z)
                               (accounts db))))
  /\ StronglySorted
       (fun x y => nocase_text_leb (mc_name x) (mc_name y) = true)
       (listMapsWithCounts db).
Proof.
  assert (Hp := count_rows_perm db). unfold count_of in Hp.
  split; [|split; [|split]].
  - rewrite (Permutation_length Hp). apply length_map.
  - intros m Hm. apply (Permutation_in _ (Permutation_sym Hp)).
    apply in_map_iff. exists m. auto.
  - intros row Hrow. apply (Permutation_in _ Hp) in Hrow.
    apply in_map_iff in Hrow as (m & <- & Hm). exists m. auto.
  - unfold listMapsWithCounts.
    apply sort_by_sorted;
      [apply nocase_text_leb_total | apply nocase_text_leb_trans].
Qed.

Lemma listMapsWithCounts_lists_every_map_witness :
  In (MapCount 1 (str "Main") 1) (listMapsWithCounts db_alice)
  /\ In (MapCount 2 (str "Other") 0) (listMapsWithCounts db_alice).
Proof.
  destruct (listMapsWithCounts_lists_every_map db_alice) as (_ & Hin & _).
  split.
  - apply (Hin (MapRow 1 (str "Main"))). now left.
  - apply (Hin (MapRow 2 (str "Other"))). right. now left.
Defined.

(** X14.  In a consistent store the counts of [listMapsWithCounts] add up to the
    number of stored accounts: every account is counted under exactly one
    map. *)
Theorem listMapsWithCounts_counts_every_account (db : database) :
  consistent db ->
  sumZ (List.map account_count (listMapsWithCounts db))
  = Z.of_nat (List.length (accounts db)).
Proof.
  intros Hc.
  rewrite (sumZ_perm _ _
             (Permutation_map account_count (count_rows_perm db))).
  rewrite map_map. cbn [account_count]. unfold count_of.
  apply counts_sum; [apply (maps_key _ Hc)|].
  intros a Ha. exact (references _ Hc a Ha).
Qed.

Lemma listMapsWithCounts_counts_every_account_witness :
  sumZ (List.map account_count (listMapsWithCounts db_alice)) = 1%Z.
Proof.
  exact (listMapsWithCounts_counts_every_account db_alice
           db_alice_consistent).
Defined.

(* ================================================================== *)
(** ** Bulk import: every line is accounted for *)
(* ================================================================== *)

Section BulkCounting.

Variable mapId : Z.

(** The engine's refusals all carry the word the [catch] looks for. *)
Lemma addAccountToMap_throws (db : database)
    (login password : option jsstring) (label : jsval) (e : exn) :
  addAccountToMap db mapId login password label = Throw e ->
  includes (str "constraint") (message e) = true
  /\ (existsb (login_clash login mapId) (accounts db) = true
      \/ map_exists db mapId = false).
Proof.
  unfold addAccountToMap.
  destruct (existsb _ (accounts db)) eqn:Hc.
  - intros [= <-]. split; [reflexivity | now left].
  - destruct (map_exists db mapId) eqn:Hm; [discriminate|].
    intros [= <-]. split; [reflexivity | now right].
Qed.

Lemma bulkStep_counts (db : database) (res : bulk_results) (ln : jsstring) :
  errors (snd (bulkStep mapId (db, res) ln))
  = errors res ++ parse_error_of ln
  /\ (added res <= added (snd (bulkStep mapId (db, res) ln)))%Z
  /\ (duplicates res <= duplicates (snd (bulkStep mapId (db, res) ln)))%Z
  /\ (added (snd (bulkStep mapId (db, res) ln))
      + duplicates (snd (bulkStep mapId (db, res) ln))
      = added res + duplicates res + parsed_ok ln)%Z.
Proof.
  unfold parse_error_of, parsed_ok.
  destruct (parsePair (JStr ln)) as [[login password]|e] eqn:Hp.
  - unfold bulkStep. rewrite Hp. cbn [bind fst snd].
    destruct (addAccountToMap db mapId (Some login) (Some password) JNull)
      as [[db' info]|e] eqn:Ha.
    + cbn. rewrite app_nil_r. repeat split; lia.
    + apply addAccountToMap_throws in Ha as [Hinc _].
      rewrite Hinc, orb_true_r. cbn. rewrite app_nil_r.
      repeat split; lia.
  - rewrite (bulkStep_malformed mapId db res ln e Hp). cbn.
    repeat split; lia.
Qed.

Lemma bulk_fold_counts (lines : list jsstring) :
  forall (db : database) (res : bulk_results),
    errors (snd (fold_left (bulkStep mapId) lines (db, res)))
    = errors res ++ flat_map parse_error_of lines
    /\ (added res
        <= added (snd (fold_left (bulkStep mapId) lines (db, res))))%Z
    /\ (duplicates res
        <= duplicates (snd (fold_left (bulkStep mapId) lines (db, res))))%Z
    /\ (added (snd (fold_left (bulkStep mapId) lines (db, res)))
        + duplicates (snd (fold_left (bulkStep mapId) lines (db, res)))
        = added res + duplicates res
          + sumZ (List.map parsed_ok lines))%Z.
Proof.
  induction lines as [|ln lines IH]; intros db res; cbn [fold_left].
  - simpl. rewrite app_nil_r. repeat split; lia.
  - destruct (bulkStep_counts db res ln) as (He & Ha & Hd & Hs).
    destruct (bulkStep mapId (db, res) ln) as [db1 res1].
    cbn [snd] in *.
    destruct (IH db1 res1) as (He' & Ha' & Hd' & Hs').
    rewrite He', He, <- app_assoc. cbn [flat_map List.map sumZ].
    repeat split; lia.
Qed.

Lemma parsed_or_error (lines : list jsstring) :
  (sumZ (List.map parsed_ok lines)
   + Z.of_nat (List.length (flat_map parse_error_of lines))
   = Z.of_nat (List.length lines))%Z.
Proof.
  induction lines as [|ln lines IH]; [reflexivity|].
  cbn [List.map sumZ flat_map]. rewrite length_app.
  unfold parsed_ok at 1, parse_error_of at 1.
  destruct (parsePair (JStr ln)); simpl List.length; lia.
Qed.

(** After the loop has seen a well-formed line for a stored map, an
    account with that login is in the map. *)
Lemma bulk_fold_stores (lines : list jsstring) :
  forall (db : database) (res : bulk_results) (ln login password : jsstring),
    map_exists db mapId = true ->
    In ln lines -> parsePair (JStr ln) = Ok (login, password) ->
    existsb (login_clash (Some login) mapId)
      (accounts (fst (fold_left (bulkStep mapId) lines (db, res)))) = true.
Proof.
  induction lines as [|x lines IH];
    intros db res ln login password Hex Hin Hp; [destruct Hin|].
  cbn [fold_left].
  assert (Hmaps : map_exists (fst (bulkStep mapId (db, res) x)) mapId = true).
  { destruct (bulkStep_store mapId db res x)
      as [-> | (l & p & info & _ & Ha)]; [exact Hex|].
    apply addAccountToMap_inv in Ha as (-> & _). exact Hex. }
  destruct Hin as [->|Hin].
  - assert (Hnow : existsb (login_clash (Some login) mapId)
                     (accounts (fst (bulkStep mapId (db, res) ln))) = true).
    { unfold bulkStep. rewrite Hp. cbn [bind fst snd].
      destruct (addAccountToMap db mapId (Some login) (Some password) JNull)
        as [[db' info]|e] eqn:Ha.
      - apply addAccountToMap_inv in Ha as (-> & _). cbn [fst].
        unfold with_account, new_account_row. cbn [accounts].
        rewrite existsb_app. cbn.
        rewrite eqb_refl, Z.eqb_refl. apply orb_true_r.
      - apply addAccountToMap_throws in Ha as [_ [Hc|Hm]]; [|congruence].
        now destruct (_ || _). }
    destruct (bulkStep mapId (db, res) ln) as [db1 res1]. cbn [fst] in *.
    destruct (bulk_fold_appends mapId lines db1 res1) as (new & -> & _).
    rewrite existsb_app, Hnow. reflexivity.
  - destruct (bulkStep mapId (db, res) x) as [db1 res1]. cbn [fst] in *.
    now apply (IH db1 res1 ln login password).
Qed.

(** Where every well-formed line is refused by the store, the loop
    leaves the store alone and adds nothing. *)
Lemma bulk_fold_refused (lines : list jsstring) :
  forall (db : database) (res : bulk_results),
    (forall ln login password,
        In ln lines -> parsePair (JStr ln) = Ok (login, password) ->
        existsb (login_clash (Some login) mapId) (accounts db) = true
        \/ map_exists db mapId = false) ->
    fst (fold_left (bulkStep mapId) lines (db, res)) = db
    /\ added (snd (fold_left (bulkStep mapId) lines (db, res))) = added res.
Proof.
  induction lines as [|x lines IH]; intros db res H; cbn [fold_left];
    [auto|].
  assert (Hstep : fst (bulkStep mapId (db, res) x) = db
                  /\ added (snd (bulkStep mapId (db, res) x)) = added res).
  { unfold bulkStep.
    destruct (parsePair (JStr x)) as [[login password]|e] eqn:Hp;
      cbn [bind fst snd].
    - destruct (addAccountToMap db mapId (Some login) (Some password) JNull)
        as [[db' info]|e] eqn:Ha.
      + apply addAccountToMap_inv in Ha as (_ & _ & Hfree & Hex).
        destruct (H x login password (or_introl eq_refl) Hp); congruence.
      + apply addAccountToMap_throws in Ha as [Hinc _].
        rewrite Hinc, orb_true_r. auto.
    - now destruct (_ || _). }
  destruct (bulkStep mapId (db, res) x) as [db1 res1].
  cbn [fst snd] in Hstep. destruct Hstep as [-> <-].
  apply IH. intros ln login password Hin. apply H. now right.
Qed.

End BulkCounting.

(** X15.  A bulk import counts every non-blank line exactly once: the
    three outcomes add up to the number of lines and no counter is
    negative.  Every line the parser rejects has an error entry with that
    line and the parser's message, and every error entry carries a line
    of the input. *)
Theorem bulkAddPairs_accounts_for_every_line
    (db : database) (mapId : Z) (pairsText : jsval) :
  (added (snd (bulkAddPairs db mapId pairsText))
   + duplicates (snd (bulkAddPairs db mapId pairsText))
   + Z.of_nat (List.length (errors (snd (bulkAddPairs db mapId pairsText))))
   = Z.of_nat (List.length (linesOf pairsText)))%Z
  /\ (0 <= added (snd (bulkAddPairs db mapId pairsText)))%Z
  /\ (0 <= duplicates (snd (bulkAddPairs db mapId pairsText)))%Z
  /\ (forall ln e,
        In ln (linesOf pairsText) -> parsePair (JStr ln) = Throw e ->
        In (ErrorEntry ln (message e))
           (errors (snd (bulkAddPairs db mapId pairsText))))
  /\ Forall (fun entry => In (line entry) (linesOf pairsText))
            (errors (snd (bulkAddPairs db mapId pairsText))).
Proof.
  unfold bulkAddPairs.
  destruct (bulk_fold_counts mapId (linesOf pairsText) db
              (BulkResults 0 0 [])) as (He & Ha & Hd & Hs).
  cbn [added duplicates errors app] in *.
  assert (Hpe := parsed_or_error (linesOf pairsText)).
  split; [rewrite He; lia|]. split; [lia|]. split; [lia|].
  rewrite He. split.
  - intros ln e Hin Hp. apply in_flat_map. exists ln. split; [assumption|].
    unfold parse_error_of. rewrite Hp. now left.
  - apply Forall_forall. intros entry Hin.
    apply in_flat_map in Hin as (ln & Hln & Hin).
    unfold parse_error_of in Hin.
    destruct (parsePair (JStr ln)) as [lp|err]; [destruct Hin|].
    destruct Hin as [<-|[]]. exact Hln.
Qed.

Lemma bulkAddPairs_accounts_for_every_line_witness :
  In (ErrorEntry (str "malformed")
        (message (Error "Use format USERNAME_OR_EMAIL:PASSWORD")))
     (errors (snd (bulkAddPairs db_one_map 1
                     (JStr (joinLines [str "a:1"; str "malformed"]))))).
Proof.
  apply (proj1 (proj2 (proj2 (proj2
           (bulkAddPairs_accounts_for_every_line db_one_map 1
              (JStr (joinLines [str "a:1"; str "malformed"]))))))).
  - right. left. reflexivity.
  - reflexivity.
Defined.

(** X16.  Importing the same text into the same map a second time adds nothing
    and leaves the store as the first import left it; the error entries
    are the same as the first time. *)
Theorem bulkAddPairs_again_adds_nothing
    (db : database) (mapId : Z) (pairsText : jsval) :
  fst (bulkAddPairs (fst (bulkAddPairs db mapId pairsText)) mapId pairsText)
  = fst (bulkAddPairs db mapId pairsText)
  /\ added (snd (bulkAddPairs (fst (bulkAddPairs db mapId pairsText))
                   mapId pairsText)) = 0%Z
  /\ errors (snd (bulkAddPairs (fst (bulkAddPairs db mapId pairsText))
                    mapId pairsText))
     = errors (snd (bulkAddPairs db mapId pairsText)).
Proof.
  unfold bulkAddPairs.
  set (lines := linesOf pairsText).
  set (first := fold_left (bulkStep mapId) lines (db, BulkResults 0 0 [])).
  assert (Hmaps : map_exists (fst first) mapId = map_exists db mapId).
  { destruct (bulk_fold_appends mapId lines db (BulkResults 0 0 []))
      as (new & _ & Hm & _).
    unfold map_exists. fold first in Hm. now rewrite Hm. }
  destruct (bulk_fold_refused mapId lines (fst first) (BulkResults 0 0 []))
    as [Hdb Hadd].
  { intros ln login password Hin Hp.
    destruct (map_exists db mapId) eqn:Hex.
    - left. apply (bulk_fold_stores mapId lines db _ ln login password);
        assumption.
    - right. congruence. }
  split; [exact Hdb|]. split; [exact Hadd|].
  rewrite (proj1 (bulk_fold_counts mapId lines (fst first)
                    (BulkResults 0 0 []))).
  unfold first.
  now rewrite (proj1 (bulk_fold_counts mapId lines db (BulkResults 0 0 []))).
Qed.

(** X17.  After a bulk import into a stored map, every well-formed line has its
    login in the map, whether the import added it or found it there. *)
Theorem bulkAddPairs_stores_every_wellformed_line
    (db : database) (mapId : Z) (pairsText : jsval)
    (ln login password : jsstring) :
  map_exists db mapId = true ->
  In ln (linesOf pairsText) ->
  parsePair (JStr ln) = Ok (login, password) ->
  exists a,
    In a (accounts (fst (bulkAddPairs db mapId pairsText)))
    /\ acc_login a = Some login /\ acc_map_id a = mapId.
Proof.
  intros Hex Hin Hp. unfold bulkAddPairs.
  assert (H := bulk_fold_stores mapId (linesOf pairsText) db
                 (BulkResults 0 0 []) ln login password Hex Hin Hp).
  apply login_clash_spec in H. now apply login_keys_In in H.
Qed.

Lemma bulkAddPairs_stores_every_wellformed_line_witness :
  exists a,
    In a (accounts (fst (bulkAddPairs db_alice 1
                           (JStr (joinLines [str "alice:x"; str "bob:y"])))))
    /\ acc_login a = Some (str "bob") /\ acc_map_id a = 1%Z.
Proof.
  apply (bulkAddPairs_stores_every_wellformed_line db_alice 1
           (JStr (joinLines [str "alice:x"; str "bob:y"]))
           (str "bob:y") (str "bob") (str "y")).
  - reflexivity.
  - right. left. reflexivity.
  - reflexivity.
Defined.

(* ================================================================== *)
(** ** Listing after an insert *)
(* ================================================================== *)

Lemma sql_limit_all {A} (limit : Z) (l : list A) :
  (limit < 0 \/ Z.of_nat (List.length l) <= limit)%Z ->
  sql_limit limit l = l.
Proof.
  intros H. unfold sql_limit.
  destruct (Z.ltb_spec limit 0); [reflexivity|].
  apply firstn_all2. lia.
Qed.

(** X18.  An accepted insert shows in the listing of its map and of no other:
    with a bound above the number of accounts the map held, the listing
    of the map is the earlier one with the new account put in; the
    listing of every other map is as before, whatever the bound. *)
Theorem addAccountToMap_shows_in_listing
    (db db' : database) (mapId : Z) (login password : option jsstring)
    (label : jsval) (info : run_info) (limit : Z) :
  addAccountToMap db mapId login password label = Ok (db', info) ->
  (Z.of_nat (count_of db mapId) < limit)%Z ->
  Permutation (listAccountsByMapId db' mapId limit)
    (AccountListing (lastInsertRowid info)
       (if truthy label then Some (stringOrEmpty label) else login)
       login password
     :: listAccountsByMapId db mapId limit)
  /\ forall M' bound,
       M' <> mapId ->
       listAccountsByMapId db' M' bound = listAccountsByMapId db M' bound.
Proof.
  intros H Hlim. apply addAccountToMap_inv in H as (-> & -> & _ & _).
  unfold listAccountsByMapId, with_account, new_account_row, count_of in *.
  cbn [accounts lastInsertRowid acc_id]. split.
  - rewrite filter_app. cbn [filter acc_map_id]. rewrite Z.eqb_refl.
    set (old := filter (fun a => (acc_map_id a =? mapId)%Z) (accounts db))
      in *.
    rewrite !sql_limit_all.
    + rewrite map_app.
      eapply perm_trans; [apply orderByLabel_perm|].
      eapply perm_trans; [apply Permutation_app_comm|].
      cbn [List.map app]. unfold listing_of at 1.
      cbn [acc_id acc_label acc_login acc_name acc_password].
      replace (coalesce3 (orElse label None) login (orElse label login))
        with (if truthy label then Some (stringOrEmpty label) else login)
        by (destruct label as [| | | | |[|c s]]; try reflexivity;
            destruct login; reflexivity).
      apply perm_skip, Permutation_sym, orderByLabel_perm.
    + right. rewrite (Permutation_length (orderByLabel_perm _)), length_map.
      lia.
    + right. rewrite (Permutation_length (orderByLabel_perm _)), length_map.
      rewrite length_app. simpl List.length. lia.
  - intros M' bound Hne. rewrite filter_app. cbn [filter acc_map_id].
    destruct (Z.eqb_spec mapId M') as [E|_]; [congruence|].
    now rewrite app_nil_r.
Qed.

Lemma addAccountToMap_shows_in_listing_witness :
  Permutation
    (listAccountsByMapId
       (with_account db_alice
          (new_account_row db_alice 1 (Some (str "bob")) (Some (str "pw"))
             JNull)) 1 250)
    (AccountListing 2 (Some (str "bob")) (Some (str "bob")) (Some (str "pw"))
     :: listAccountsByMapId db_alice 1 250).
Proof.
  apply (proj1 (addAccountToMap_shows_in_listing db_alice _ 1
                  (Some (str "bob")) (Some (str "pw")) JNull _ 250
                  eq_refl eq_refl)).
Defined.

(* ================================================================== *)
(** ** The display helpers *)
(* ================================================================== *)

Section EscapeFacts.

Lemma replaceAll_app (c : N) (r a b : jsstring) :
  replaceAll c r (a ++ b) = replaceAll c r a ++ replaceAll c r b.
Proof. unfold replaceAll. apply flat_map_app. Qed.

Lemma replaceAll_flat_map (c : N) (r : jsstring) (f : N -> jsstring)
    (s : jsstring) :
  replaceAll c r (flat_map f s) = flat_map (fun x => replaceAll c r (f x)) s.
Proof.
  induction s as [|x s IH]; simpl; [reflexivity|].
  now rewrite replaceAll_app, IH.
Qed.

Lemma escape_passes_one (x : N) :
  replaceAll 39 (str "&#039;")
    (replaceAll 34 (str "&quot;")
       (replaceAll 62 (str "&gt;")
          (replaceAll 60 (str "&lt;")
             (replaceAll 38 (str "&amp;") [x]))))
  = escapeChar x.
Proof.
  unfold escapeChar, replaceAll at 5. cbn [flat_map]. rewrite app_nil_r.
  destruct (x =? 38)%N eqn:E38; [reflexivity|].
  unfold replaceAll at 4. cbn [flat_map]. rewrite app_nil_r.
  destruct (x =? 60)%N eqn:E60; [reflexivity|].
  unfold replaceAll at 3. cbn [flat_map]. rewrite app_nil_r.
  destruct (x =? 62)%N eqn:E62; [reflexivity|].
  unfold replaceAll at 2. cbn [flat_map]. rewrite app_nil_r.
  destruct (x =? 34)%N eqn:E34; [reflexivity|].
  unfold replaceAll. cbn [flat_map]. rewrite app_nil_r.
  destruct (x =? 39)%N eqn:E39; reflexivity.
Qed.

Lemma escape_passes (s : jsstring) :
  replaceAll 39 (str "&#039;")
    (replaceAll 34 (str "&quot;")
       (replaceAll 62 (str "&gt;")
          (replaceAll 60 (str "&lt;")
             (replaceAll 38 (str "&amp;") s))))
  = flat_map escapeChar s.
Proof.
  induction s as [|x s IH]; [reflexivity|].
  change (x :: s) with ([x] ++ s).
  rewrite !replaceAll_app, IH, escape_passes_one. reflexivity.
Qed.

Lemma escapeChar_clean (x c : N) :
  markup c = true -> ~ In c (escapeChar x).
Proof.
  unfold markup, escapeChar. intros Hc Hin.
  destruct (N.eqb_spec x 38); [|destruct (N.eqb_spec x 60);
    [|destruct (N.eqb_spec x 62); [|destruct (N.eqb_spec x 34);
      [|destruct (N.eqb_spec x 39)]]]];
    simpl in Hin;
    repeat (destruct Hin as [Hin|Hin]; [subst; try discriminate Hc|]);
    try contradiction.
  repeat (apply orb_true_iff in Hc as [Hc|Hc]);
    apply N.eqb_eq in Hc; congruence.
Qed.

Lemma escapeChar_safe (x : N) :
  markup x = false -> x <> 38%N -> escapeChar x = [x].
Proof.
  unfold markup, escapeChar. intros Hm Hne.
  repeat (apply orb_false_iff in Hm as [Hm ?]).
  destruct (N.eqb_spec x 38); [contradiction|].
  now rewrite Hm, H1, H0, H.
Qed.

(** Two characters with the same escaped prefix are the same character. *)
Lemma escapeChar_prefix (x y : N) (a b : jsstring) :
  escapeChar x ++ a = escapeChar y ++ b -> x = y /\ a = b.
Proof.
  unfold escapeChar.
  destruct (N.eqb_spec x 38); [|destruct (N.eqb_spec x 60);
    [|destruct (N.eqb_spec x 62); [|destruct (N.eqb_spec x 34);
      [|destruct (N.eqb_spec x 39)]]]];
  (destruct (N.eqb_spec y 38); [|destruct (N.eqb_spec y 60);
    [|destruct (N.eqb_spec y 62); [|destruct (N.eqb_spec y 34);
      [|destruct (N.eqb_spec y 39)]]]]);
  simpl; intros H; try discriminate H;
    try (injection H as H; split; congruence);
    try (injection H; intros; subst; split; congruence).
Qed.

End EscapeFacts.

Lemma escapeHTML_flat (v : jsval) :
  escapeHTML v = flat_map escapeChar (textOf v).
Proof. apply escape_passes. Qed.

(** X19.  The five passes of [escapeHTML] amount to one pass that replaces each
    character on its own: nothing is escaped twice, text without the five
    characters is returned as it is, and the result of a concatenation is
    the concatenation of the results. *)
Theorem escapeHTML_is_one_pass :
  (forall v, escapeHTML v = flat_map escapeChar (textOf v))
  /\ (forall a b,
        escapeHTML (JStr (a ++ b))
        = escapeHTML (JStr a) ++ escapeHTML (JStr b))
  /\ (forall s,
        Forall (fun c => markup c = false /\ c <> 38%N) s ->
        escapeHTML (JStr s) = s)
  /\ escapeHTML (JStr (str "<a href='x'>R&D</a>"))
     = str "&lt;a href=&#039;x&#039;&gt;R&amp;D&lt;/a&gt;".
Proof.
  assert (H1 := escapeHTML_flat).
  split; [exact H1|]. split; [|split].
  - intros a b. rewrite !H1. apply flat_map_app.
  - intros s Hs. rewrite H1. cbn [textOf toString].
    induction Hs as [|c s [Hm Hne] _ IH]; [reflexivity|].
    cbn [flat_map]. rewrite IH, (escapeChar_safe _ Hm Hne). reflexivity.
  - reflexivity.
Qed.

Lemma escapeHTML_is_one_pass_witness :
  escapeHTML (JStr (str "plain text")) = str "plain text".
Proof.
  apply (proj1 (proj2 (proj2 escapeHTML_is_one_pass))).
  repeat (constructor; [split; [reflexivity | discriminate]|]).
  constructor.
Defined.

(** X20.  What [escapeHTML] returns holds none of [<], [>], the double quote
    and the single quote, whatever it is given. *)
Theorem escapeHTML_leaves_no_markup (v : jsval) (c : N) :
  markup c = true -> ~ In c (escapeHTML v).
Proof.
  intros Hc Hin. rewrite escapeHTML_flat in Hin.
  apply in_flat_map in Hin as (x & _ & Hin).
  exact (escapeChar_clean x c Hc Hin).
Qed.

Lemma escapeHTML_leaves_no_markup_witness :
  ~ In 60%N (escapeHTML (JStr (str "<script>alert('x')</script>"))).
Proof.
  apply escapeHTML_leaves_no_markup. reflexivity.
Defined.

(** X21.  [escapeHTML] loses nothing: two texts with the same escaped form are
    the same text. *)
Theorem escapeHTML_is_injective (a b : jsstring) :
  escapeHTML (JStr a) = escapeHTML (JStr b) -> a = b.
Proof.
  rewrite !escapeHTML_flat. cbn [textOf toString].
  revert b. induction a as [|x a IH]; intros [|y b] H.
  - reflexivity.
  - exfalso. cbn [flat_map] in H.
    assert (Hl : List.length (escapeChar y ++ flat_map escapeChar b) = 0%nat)
      by (rewrite <- H; reflexivity).
    rewrite length_app in Hl.
    unfold escapeChar in Hl.
    destruct (y =? 38)%N, (y =? 60)%N, (y =? 62)%N, (y =? 34)%N,
      (y =? 39)%N; simpl in Hl; lia.
  - exfalso. cbn [flat_map] in H.
    assert (Hl : List.length (escapeChar x ++ flat_map escapeChar a) = 0%nat)
      by (rewrite H; reflexivity).
    rewrite length_app in Hl.
    unfold escapeChar in Hl.
    destruct (x =? 38)%N, (x =? 60)%N, (x =? 62)%N, (x =? 34)%N,
      (x =? 39)%N; simpl in Hl; lia.
  - cbn [flat_map] in H. apply escapeChar_prefix in H as [-> H].
    f_equal. now apply IH.
Qed.

Lemma escapeHTML_is_injective_witness : str "a<b" = str "a<b".
Proof.
  exact (escapeHTML_is_injective (str "a<b") (str "a<b") eq_refl).
Defined.

(** X22.  [truncate] returns a text of at most [max] code units as it is, and
    cuts a longer one to its first [max - 1] code units followed by the
    three-character marker of the source: the result is then [max + 2]
    code units long.  A falsy argument is returned as it is. *)
Theorem truncate_cuts_to_prefix_and_marker (s : jsstring) (max : Z) :
  (1 <= max)%Z ->
  ((Z.of_nat (List.length s) <= max)%Z ->
   truncate (JStr s) max = JStr s)
  /\ ((max < Z.of_nat (List.length s))%Z ->
      truncate (JStr s) max
      = JStr (firstn (Z.to_nat (max - 1)) s ++ ellipsis)
      /\ exists t, truncate (JStr s) max = JStr t
                   /\ Z.of_nat (List.length t) = (max + 2)%Z)
  /\ (forall v, truthy v = false -> truncate v max = v).
Proof.
  intros Hmax. split; [|split].
  - intros Hle. unfold truncate.
    destruct (nonEmpty s); [|reflexivity]. cbn [negb].
    destruct (Z.gtb_spec (Z.of_nat (List.length s)) max); [lia|reflexivity].
  - intros Hgt.
    assert (Hcut : truncate (JStr s) max
                   = JStr (firstn (Z.to_nat (max - 1)) s ++ ellipsis)).
    { unfold truncate.
      destruct s as [|c r]; [simpl in Hgt; lia|]. cbn [nonEmpty negb].
      destruct (Z.gtb_spec (Z.of_nat (List.length (c :: r))) max); [|lia].
      unfold sliceTo.
      destruct (Z.ltb_spec (max - 1) 0); [lia|].
      now rewrite Z.min_l by lia. }
    split; [exact Hcut|].
    eexists. split; [exact Hcut|].
    rewrite length_app, length_firstn. cbn [ellipsis List.length]. lia.
  - intros v Hv. unfold truncate.
    destruct v as [| | | | |[|c r]]; try reflexivity. discriminate Hv.
Qed.

Lemma truncate_cuts_to_prefix_and_marker_witness :
  truncate (JStr (str "abcdef")) 4 = JStr (str "abc" ++ ellipsis).
Proof.
  apply (proj1 (proj2 (truncate_cuts_to_prefix_and_marker
                         (str "abcdef") 4 ltac:(lia)))).
  simpl. lia.
Defined.

(** X23.  [mask] shows nothing of a password but its length, cut to the range
    from 6 to 10: a non-empty password gives that many copies of the
    bullet literal, so two passwords of equal length, two of at most 6
    code units and two of at least 10 are masked alike; an empty or
    missing password gives the dash literal. *)
Theorem mask_shows_only_the_length :
  (forall s, s <> [] ->
     mask (JStr s) = repeatStr bullet (maskLength (List.length s))
     /\ (6 <= maskLength (List.length s) <= 10)%nat)
  /\ (forall s t, s <> [] -> t <> [] ->
        maskLength (List.length s) = maskLength (List.length t) ->
        mask (JStr s) = mask (JStr t))
  /\ (forall s t, s <> [] -> t <> [] ->
        (List.length s = List.length t
         \/ (List.length s <= 6 /\ List.length t <= 6)
         \/ (10 <= List.length s /\ 10 <= List.length t))%nat ->
        mask (JStr s) = mask (JStr t))
  /\ (forall v, truthy v = false -> mask v = dash).
Proof.
  assert (H1 : forall s, s <> [] ->
            mask (JStr s) = repeatStr bullet (maskLength (List.length s))).
  { intros s Hs. unfold mask, maskLength. cbn [stringOrEmpty].
    destruct s; [congruence | reflexivity]. }
  split; [|split; [|split]].
  - intros s Hs. split; [now apply H1|]. unfold maskLength. lia.
  - intros s t Hs Ht E. rewrite (H1 s Hs), (H1 t Ht). now rewrite E.
  - intros s t Hs Ht H. rewrite (H1 s Hs), (H1 t Ht). f_equal.
    unfold maskLength. lia.
  - intros v Hv. unfold mask.
    destruct v as [| | | | |[|c r]]; try reflexivity. discriminate Hv.
Qed.

Lemma mask_shows_only_the_length_witness :
  mask (JStr (str "hunter2")) = mask (JStr (str "letmein")).
Proof.
  apply (proj1 (proj2 mask_shows_only_the_length));
    [discriminate | discriminate | reflexivity].
Defined.

(* ================================================================== *)
(** ** The web form that creates a map *)
(* ================================================================== *)

(** X24.  The handler of [POST /map] keeps blank names out of the store: where
    no stored map has the empty name, none has it afterwards.  A blank or
    missing name changes nothing; after a name that is not blank, that
    name resolves with [getMapByName], whether the map was created or was
    there before; the accounts are untouched and a consistent store stays
    consistent. *)
Theorem postMap_keeps_blank_names_out (db : database) (body_name : jsval) :
  (forall m, In m (maps db) -> map_name m <> []) ->
  (forall m, In m (maps (postMap db body_name)) -> map_name m <> [])
  /\ (trim (stringOrEmpty body_name) = [] -> postMap db body_name = db)
  /\ (trim (stringOrEmpty body_name) <> [] ->
      exists m,
        getMapByName (postMap db body_name) (stringOrEmpty body_name)
        = Some m)
  /\ accounts (postMap db body_name) = accounts db
  /\ (consistent db -> consistent (postMap db body_name)).
Proof.
  intros Hnames. unfold postMap.
  set (name := trim (stringOrEmpty body_name)).
  assert (Htrim : trim name = name) by apply trim_idem.
  destruct (nonEmpty name) eqn:Hne; cbn [negb].
  - apply nonEmpty_true in Hne.
    destruct (createMap db name) as [[db' info]|e] eqn:Hc.
    + apply createMap_inv in Hc as Hinv. destruct Hinv as (_ & -> & _).
      cbn [maps accounts]. rewrite Htrim.
      split; [|split; [|split; [|split]]].
      * intros m Hm. apply in_app_or in Hm as [Hm | [<-|[]]];
          [now apply Hnames | exact Hne].
      * intros E. congruence.
      * intros _. apply existsb_find. unfold getMapByName. cbn [maps].
        rewrite existsb_app. cbn. fold name.
        rewrite nocase_eqb_refl. cbn. apply orb_true_r.
      * reflexivity.
      * intros Hcons.
        assert (H := createMap_consistent _ _ _ _ Hcons Hc).
        rewrite Htrim in H. exact H.
    + split; [exact Hnames|]. split; [reflexivity|].
      split; [|split; [reflexivity | auto]].
      intros _. apply existsb_find. unfold getMapByName. fold name.
      unfold createMap in Hc. rewrite Htrim in Hc. unfold name_taken in Hc.
      destruct (existsb _ (maps db)); [reflexivity | discriminate Hc].
  - split; [exact Hnames|]. split; [reflexivity|].
    split; [|split; [reflexivity | auto]].
    intros Hn. apply nonEmpty_true in Hn. congruence.
Qed.

Lemma postMap_keeps_blank_names_out_witness :
  postMap db_one_map (JStr (str "   ")) = db_one_map
  /\ exists m,
       getMapByName (postMap db_one_map (JStr (str " Prod ")))
         (str " Prod ") = Some m.
Proof.
  assert (Hnames : forall m, In m (maps db_one_map) -> map_name m <> [])
    by (intros m [<-|[]]; discriminate).
  destruct (postMap_keeps_blank_names_out db_one_map (JStr (str "   "))
              Hnames) as (_ & Hblank & _).
  destruct (postMap_keeps_blank_names_out db_one_map (JStr (str " Prod "))
              Hnames) as (_ & _ & Hfound & _).
  split; [apply Hblank; reflexivity | apply Hfound; discriminate].
Defined.

(* ================================================================== *)
(** ** The columns of accounts at start-up *)
(* ================================================================== *)

Section MigrationFacts.

Lemma hasColumn_app (cols more : columns) (c : jsstring) :
  hasColumn cols c = true -> hasColumn (cols ++ more) c = true.
Proof.
  unfold hasColumn. intros H. now rewrite existsb_app, H.
Qed.

Lemma ensureColumn_Some (cols cols' : columns) (c : jsstring) :
  ensureColumn cols c = Some cols' ->
  hasColumn cols' c = true
  /\ (cols' = cols \/ (cols' = cols ++ [c] /\ hasColumn cols c = false))
  /\ forall x, hasColumn cols x = true -> hasColumn cols' x = true.
Proof.
  unfold ensureColumn, addColumn.
  destruct (hasColumn cols c) eqn:Hh; cbn [negb].
  - intros [= <-]. auto.
  - destruct (existsb _ cols); [discriminate|]. intros [= <-].
    split; [|split].
    + unfold hasColumn. rewrite existsb_app. cbn. rewrite eqb_refl.
      apply orb_true_r.
    + right. auto.
    + intros x Hx. now apply hasColumn_app.
Qed.

Lemma ensureColumn_present (cols : columns) (c : jsstring) :
  hasColumn cols c = true -> ensureColumn cols c = Some cols.
Proof. unfold ensureColumn. now intros ->. Qed.

End MigrationFacts.

(** X25.  The start-up migration is safe to repeat and never drops a column:
    when it goes through, the table has the columns [login], [password]
    and [label], the columns it had before are still there, in their
    order and in front, and a second run changes nothing.  On a database
    without the table, and on the legacy table, it goes through. *)
Theorem migrate_is_idempotent (table : option columns) (cols : columns) :
  migrate table = Some cols ->
  migrate (Some cols) = Some cols
  /\ hasColumn cols (str "login") = true
  /\ hasColumn cols (str "password") = true
  /\ hasColumn cols (str "label") = true
  /\ (exists added,
        cols = match table with None => legacy_columns | Some c => c end
               ++ added
        /\ incl added [str "login"; str "password"; str "label"])
  /\ migrate None = Some (legacy_columns
                          ++ [str "login"; str "password"; str "label"])
  /\ migrate (Some legacy_columns) = migrate None.
Proof.
  unfold migrate at 1.
  set (start := match table with None => legacy_columns | Some c => c end).
  destruct (ensureColumn start (str "login")) as [c1|] eqn:E1;
    [|discriminate].
  destruct (ensureColumn c1 (str "password")) as [c2|] eqn:E2;
    [|discriminate].
  intros E3.
  apply ensureColumn_Some in E1 as (H1 & S1 & M1).
  apply ensureColumn_Some in E2 as (H2 & S2 & M2).
  apply ensureColumn_Some in E3 as (H3 & S3 & M3).
  assert (Hl : hasColumn cols (str "login") = true) by auto.
  assert (Hp : hasColumn cols (str "password") = true) by auto.
  split; [|split; [|split; [|split; [|split; [|split]]]]];
    try assumption; try reflexivity.
  - unfold migrate.
    now rewrite (ensureColumn_present _ _ Hl), (ensureColumn_present _ _ Hp),
      (ensureColumn_present _ _ H3).
  - destruct S1 as [-> | [-> _]], S2 as [-> | [-> _]], S3 as [-> | [-> _]];
      rewrite <- ?app_assoc;
      eexists; (split; [try reflexivity; symmetry; apply app_nil_r|]);
      intros x Hx; simpl in *; tauto.
Qed.

Lemma migrate_is_idempotent_witness :
  migrate (Some (legacy_columns
                 ++ [str "login"; str "password"; str "label"]))
  = Some (legacy_columns ++ [str "login"; str "password"; str "label"]).
Proof.
  exact (proj1 (migrate_is_idempotent None _ eq_refl)).
Defined.

Section MigrationFailure.

Lemma blocked_spec (cols : columns) (c : jsstring) :
  blocked cols c = true <->
  hasColumn cols c = false /\ exists x, In x cols /\ nocase_eqb x c = true.
Proof.
  unfold blocked. rewrite andb_true_iff, negb_true_iff, existsb_exists.
  tauto.
Qed.

Lemma ensureColumn_cases (cols : columns) (c : jsstring) :
  (ensureColumn cols c = None /\ blocked cols c = true)
  \/ (blocked cols c = false
      /\ (ensureColumn cols c = Some cols
          \/ ensureColumn cols c = Some (cols ++ [c]))).
Proof.
  unfold ensureColumn, addColumn, blocked.
  destruct (hasColumn cols c); cbn [negb andb]; [auto|].
  destruct (existsb _ cols); auto.
Qed.

Lemma blocked_snoc (cols : columns) (d c : jsstring) :
  nocase_eqb d c = false -> blocked (cols ++ [d]) c = blocked cols c.
Proof.
  intros H. unfold blocked, hasColumn. rewrite !existsb_app. cbn.
  rewrite H.
  assert (E : JS.eqb d c = false).
  { apply eqb_neq. intros ->. now rewrite nocase_eqb_refl in H. }
  now rewrite E, !orb_false_r.
Qed.

Lemma migrate_None_iff (cols : columns) :
  migrate (Some cols) = None <->
  blocked cols (str "login") = true
  \/ blocked cols (str "password") = true
  \/ blocked cols (str "label") = true.
Proof.
  unfold migrate.
  destruct (ensureColumn_cases cols (str "login"))
    as [[-> B1] | [B1 [-> | ->]]].
  - split; [auto | reflexivity].
  - destruct (ensureColumn_cases cols (str "password"))
      as [[-> B2] | [B2 [-> | ->]]].
    + split; [auto | reflexivity].
    + destruct (ensureColumn_cases cols (str "label"))
        as [[-> B3] | [B3 [-> | ->]]];
        (split; [try discriminate; auto | intros [H|[H|H]]; congruence]).
    + assert (B3' := blocked_snoc cols (str "password") (str "label")
                       eq_refl).
      destruct (ensureColumn_cases (cols ++ [str "password"]) (str "label"))
        as [[-> B3] | [B3 [-> | ->]]];
        rewrite B3' in B3;
        (split; [try discriminate; auto | intros [H|[H|H]]; congruence]).
  - assert (B2' := blocked_snoc cols (str "login") (str "password") eq_refl).
    assert (B3' := blocked_snoc cols (str "login") (str "label") eq_refl).
    destruct (ensureColumn_cases (cols ++ [str "login"]) (str "password"))
      as [[-> B2] | [B2 [-> | ->]]]; rewrite B2' in B2.
    + split; [auto | reflexivity].
    + destruct (ensureColumn_cases (cols ++ [str "login"]) (str "label"))
        as [[-> B3] | [B3 [-> | ->]]]; rewrite B3' in B3;
        (split; [try discriminate; auto | intros [H|[H|H]]; congruence]).
    + assert (B3'' := blocked_snoc (cols ++ [str "login"]) (str "password")
                        (str "label") eq_refl).
      destruct (ensureColumn_cases
                  ((cols ++ [str "login"]) ++ [str "password"])
                  (str "label"))
        as [[-> B3] | [B3 [-> | ->]]]; rewrite B3'', B3' in B3;
        (split; [try discriminate; auto | intros [H|[H|H]]; congruence]).
Qed.

End MigrationFailure.

(** X26.  The migration stops the start-up exactly when the table has a column
    that is [login], [password] or [label] up to the case of its letters
    while the exact name is missing: the guard looks for the exact name,
    the engine refuses the name whatever its case. *)
Theorem migrate_fails_on_case_variant (cols : columns) :
  migrate (Some cols) = None <->
  exists c x,
    In c [str "login"; str "password"; str "label"]
    /\ hasColumn cols c = false
    /\ In x cols /\ nocase_eqb x c = true.
Proof.
  rewrite migrate_None_iff, !blocked_spec. split.
  - intros [(H & x & Hx & E) | [(H & x & Hx & E) | (H & x & Hx & E)]];
      eexists _, x; (split; [|split; [exact H | split; [exact Hx | exact E]]]);
      simpl; auto.
  - intros (c & x & Hc & H & Hx & E).
    destruct Hc as [<- | [<- | [<- | []]]]; eauto 6.
Qed.

Lemma migrate_fails_on_case_variant_witness :
  migrate (Some (legacy_columns ++ [str "Login"])) = None.
Proof.
  apply (proj2 (migrate_fails_on_case_variant
                  (legacy_columns ++ [str "Login"]))).
  exists (str "login"), (str "Login").
  split; [now left|]. split; [reflexivity|].
  split; [|reflexivity].
  apply in_or_app. right. now left.
Defined.
